(** * FTM_Rev07: the tape machine, its audio pipeline and their contracts

    A shallow embedding of [src/FTM_Rev07.py].  Python integers are
    unbounded, so they are [Z]; [//] and [%] are floor division and its
    remainder, which is what [Z.div] and [Z.modulo] compute.  A Python
    exception is a value of [py_error] carried by the [result] monad: the
    program never catches one, so a raise ends the run. *)

From Stdlib Require Import ZArith Lia Ascii.
From stdpp Require Import gmap strings list fin_maps.

Local Open Scope Z_scope.

(** ** Exceptions *)

(** What opening and reading a file can raise once the path exists: from
    [open] itself, from decoding the bytes, from the [csv] tokenizer. *)
Inductive read_error : Set :=
  | IsADirectoryError
  | PermissionError
  | UnicodeDecodeError
  | CsvError.

Inductive py_error : Set :=
  | FileNotFoundError
  | ReadError (r : read_error)
  | ValueError
  | TypeError
  | AttributeError
  | KeyError
  | IndexError
  | ZeroDivisionError
  | StructError.

Inductive result (A : Type) : Type :=
  | Raise (e : py_error)
  | Ok (a : A).

Arguments Raise {A} e.
Arguments Ok {A} a.

#[export] Instance result_ret : MRet result := fun A a => Ok a.

#[export] Instance result_bind : MBind result := fun A B f m =>
  match m with
  | Raise e => Raise e
  | Ok a => f a
  end.

#[export] Instance result_fmap : FMap result := fun A B f m =>
  match m with
  | Raise e => Raise e
  | Ok a => Ok (f a)
  end.

Definition is_Ok {A} (r : result A) : bool :=
  match r with Ok _ => true | Raise _ => false end.

(** ** Python built-ins used by the program *)

Module Py.

(** [a // b] and [a % b]; both raise on a zero divisor. *)
Definition floordiv (a b : Z) : result Z :=
  if b =? 0 then Raise ZeroDivisionError else Ok (a / b).

Definition mod_ (a b : Z) : result Z :=
  if b =? 0 then Raise ZeroDivisionError else Ok (a `mod` b).

(** [[x] * n] : the empty list when [n <= 0]. *)
Definition list_repeat (x : Z) (n : Z) : list Z := replicate (Z.to_nat n) x.

(** List subscripts: a negative index counts from the end, anything still
    out of range raises [IndexError]. *)
Definition norm_index (len i : Z) : result Z :=
  let j := if i <? 0 then i + len else i in
  if (0 <=? j) && (j <? len) then Ok j else Raise IndexError.

Definition list_getitem (l : list Z) (i : Z) : result Z :=
  j ← norm_index (Z.of_nat (length l)) i;
  match l !! Z.to_nat j with
  | Some v => Ok v
  | None => Raise IndexError
  end.

Definition list_setitem (l : list Z) (i v : Z) : result (list Z) :=
  j ← norm_index (Z.of_nat (length l)) i;
  Ok (<[Z.to_nat j := v]> l).

(** [d[k]] on a dict. *)
Definition dict_getitem `{Countable K} {V} (d : gmap K V) (k : K) : result V :=
  match d !! k with
  | Some v => Ok v
  | None => Raise KeyError
  end.

(** *** Text.  A cell is ASCII text, one [ascii] for each character.
    Outside ASCII Python does more: [str.strip] also removes U+0085 and
    U+00A0, [str.upper] takes U+017F to S, [int] reads the digits of other
    scripts.  The characterisation of the loader's failures is therefore
    stated for sources whose cells are ASCII. *)

(** The ASCII characters [str.strip] removes: TAB..CR, FS..US and SPACE. *)
Definition is_space (c : ascii) : bool :=
  let n := Z.of_nat (nat_of_ascii c) in
  ((9 <=? n) && (n <=? 13)) || ((28 <=? n) && (n <=? 32)).

(** The ASCII characters [int] skips around a literal: TAB..CR and SPACE. *)
Definition is_int_space (c : ascii) : bool :=
  let n := Z.of_nat (nat_of_ascii c) in
  ((9 <=? n) && (n <=? 13)) || (n =? 32).

Fixpoint lstrip (space : ascii → bool) (s : string) : string :=
  match s with
  | String c r => if space c then lstrip space r else s
  | EmptyString => EmptyString
  end.

(** Drops trailing white space: a character is kept when it is not a space
    or when something is kept after it. *)
Fixpoint rstrip (space : ascii → bool) (s : string) : string :=
  match s with
  | EmptyString => EmptyString
  | String c r =>
      match rstrip space r with
      | EmptyString => if space c then EmptyString else String c EmptyString
      | r' => String c r'
      end
  end.

(** [s.strip()] *)
Definition strip (s : string) : string := rstrip is_space (lstrip is_space s).

Definition upper_char (c : ascii) : ascii :=
  let n := nat_of_ascii c in
  if (97 <=? Z.of_nat n) && (Z.of_nat n <=? 122)
  then ascii_of_nat (n - 32) else c.

(** [s.upper()] *)
Fixpoint upper (s : string) : string :=
  match s with
  | EmptyString => EmptyString
  | String c r => String (upper_char c) (upper r)
  end.

Definition digit_of (c : ascii) : option Z :=
  let n := Z.of_nat (nat_of_ascii c) in
  if (48 <=? n) && (n <=? 57) then Some (n - 48) else None.

(** The digits of a decimal literal after its sign.  [acc] is the value
    read so far and [prev_digit] tells whether the previous character was
    a digit: an underscore must stand between two digits. *)
Fixpoint int_digits (s : string) (acc : Z) (prev_digit : bool) : option Z :=
  match s with
  | EmptyString => if prev_digit then Some acc else None
  | String c r =>
      match digit_of c with
      | Some d => int_digits r (10 * acc + d) true
      | None =>
          if (Ascii.eqb c "_"%char) && prev_digit
          then match r with
               | String c' _ =>
                   if bool_decide (is_Some (digit_of c'))
                   then int_digits r acc false
                   else None
               | EmptyString => None
               end
          else None
      end
  end.

(** The number of digits of a literal; underscores do not count, leading
    zeros do. *)
Fixpoint digit_count (s : string) : Z :=
  match s with
  | EmptyString => 0
  | String c r => match digit_of c with Some _ => 1 | None => 0 end + digit_count r
  end.

(** CPython's default limit on the digits [int] converts
    ([sys.int_info.default_max_str_digits]). *)
Definition max_str_digits : Z := 4300.

(** [int(s)] for a string: surrounding white space, an optional sign, then
    decimal digits, single underscores allowed between digits, at most
    [max_str_digits] digits in all.  [None] stands for the [ValueError]
    Python raises. *)
Definition int_of_str (s : string) : option Z :=
  let magnitude r :=
    if max_str_digits <? digit_count r then None else int_digits r 0 false in
  match rstrip is_int_space (lstrip is_int_space s) with
  | EmptyString => None
  | String c r =>
      if Ascii.eqb c "+" then magnitude r
      else if Ascii.eqb c "-" then Z.opp <$> magnitude r
      else magnitude (String c r)
  end.

(** *** [collections.deque] with a [maxlen] *)

Record deque : Set := Deque { items : list Z; maxlen : Z }.

(** [d.append(x)]: the item goes on the right, and a deque that is now
    longer than [maxlen] loses its leftmost item. *)
Definition append (d : deque) (x : Z) : deque :=
  let items' := items d ++ [x] in
  Deque (if maxlen d <? Z.of_nat (length items') then drop 1 items' else items')
        (maxlen d).

(** [d.popleft()] *)
Definition popleft (d : deque) : result (Z * deque) :=
  match items d with
  | [] => Raise IndexError
  | x :: r => Ok (x, Deque r (maxlen d))
  end.

(** [deque(iterable, maxlen=n)] appends the items one by one.  The program
    only ever passes an [n] of at least 1. *)
Definition deque_of (iterable : list Z) (n : Z) : deque :=
  foldl append (Deque [] n) iterable.

End Py.

(** ** Data (lines 15-26) *)

Record Rule : Set := { write : Z; move : Z; next_pc : Z }.

Record MachineState : Set := { tape : list Z; i : Z; pc : Z; cycle : Z }.

(** ** load_program (lines 41-75) *)

(** What [open] and [csv.reader] make of the file at a path that exists:
    the rows the reader yields, each a list of cells, and the exception
    that ends the reading, if one does ([open] refusing a directory, a
    byte that does not decode, a field the tokenizer refuses).  The reader
    is lazy, so the rows before the failure have been handed over. *)
Record csv_source : Set :=
  { yielded : list (list string); raised : option read_error }.

(** A file that reads to its end. *)
Definition plain (rows : list (list string)) : csv_source :=
  {| yielded := rows; raised := None |}.

(** The file system maps the paths that exist to what reading them gives. *)
Definition file_system : Type := gmap string csv_source.

(** One row as [csv.DictReader] hands it over: the cells zipped with the
    field names, and [None] (the reader's [restval]) under every field name
    a short row has no cell for. *)
Definition dict_row (fieldnames row : list string) : gmap string (option string) :=
  let d := foldl (fun d kv => <[kv.1 := Some kv.2]> d) ∅ (zip fieldnames row) in
  foldl (fun d key => <[key := None]> d) d (drop (length row) fieldnames).

(** The reader takes the first row as its field names and skips blank rows. *)
Definition dict_reader (rows : list (list string))
  : list string * list (gmap string (option string)) :=
  match rows with
  | [] => ([], [])
  | fieldnames :: rest =>
      (fieldnames, dict_row fieldnames <$> filter (fun r => r ≠ []) rest)
  end.

Definition required : list string := ["pc"; "read"; "write"; "move"; "next_pc"].

(** [int(row[key])]: [TypeError] on [None], [ValueError] on text that is
    not an integer literal. *)
Definition int_field (row : gmap string (option string)) (key : string) : result Z :=
  cell ← Py.dict_getitem row key;
  match cell with
  | None => Raise TypeError
  | Some s =>
      match Py.int_of_str s with
      | Some z => Ok z
      | None => Raise ValueError
      end
  end.

(** [row["move"].strip().upper()] *)
Definition move_field (row : gmap string (option string)) : result string :=
  cell ← Py.dict_getitem row "move";
  match cell with
  | None => Raise AttributeError
  | Some s => Ok (Py.upper (Py.strip s))
  end.

Definition move_of (mv : string) : option Z :=
  if bool_decide (mv = "L") then Some (-1)
  else if bool_decide (mv = "R") then Some 1
  else if bool_decide (mv = "S") then Some 0
  else None.

(** The body of [for row in rdr] (lines 55-68), on the dict and the set
    built so far. *)
Definition load_row (acc : gmap (Z * Z) Rule * gset Z)
    (row : gmap string (option string)) : result (gmap (Z * Z) Rule * gset Z) :=
  let '(program, pcs) := acc in
  pc ← int_field row "pc";
  read ← int_field row "read";
  write ← int_field row "write";
  mv ← move_field row;
  next_pc ← int_field row "next_pc";
  match move_of mv with
  | None => Raise ValueError
  | Some move =>
      if negb (bool_decide (write ∈ [0; 1; 2])) then Raise ValueError
      else Ok (<[(pc, read) := {| write := write; move := move; next_pc := next_pc |}]> program,
               {[pc]} ∪ pcs)
  end.

Fixpoint load_rows (acc : gmap (Z * Z) Rule * gset Z)
    (rows : list (gmap string (option string))) : result (gmap (Z * Z) Rule * gset Z) :=
  match rows with
  | [] => Ok acc
  | row :: rest => acc' ← load_row acc row; load_rows acc' rest
  end.

(** Lines 70-73: every state met as a key needs both of its rules. *)
Definition total_on (program : gmap (Z * Z) Rule) (pcs : gset Z) : bool :=
  forallb (fun pc => forallb (fun read => bool_decide (is_Some (program !! (pc, read))))
                             [0; 1])
          (elements pcs).

Definition load_program (fs : file_system) (csv_path : string)
  : result (gmap (Z * Z) Rule) :=
  match fs !! csv_path with
  | None => Raise FileNotFoundError
  | Some src =>
      match yielded src, raised src with
      | [], Some r => Raise (ReadError r)
      | _, _ =>
          let '(fieldnames, rdr) := dict_reader (yielded src) in
          if negb (bool_decide (required ⊆ fieldnames)) then Raise ValueError
          else
            '(program, pcs) ← load_rows (∅, ∅) rdr;
            match raised src with
            | Some r => Raise (ReadError r)
            | None => if total_on program pcs then Ok program else Raise ValueError
            end
      end
  end.

(** ** reset_machine (lines 77-83) *)

Definition reset_machine (state : MachineState) (N : Z) : result MachineState :=
  let tape0 := Py.list_repeat 0 N in
  tape1 ← Py.list_setitem tape0 (N / 4) 1;
  Ok {| tape := tape1; i := 0; pc := 1; cycle := 0 |}.

(** ** The tape machine inside the step loop *)

(** What one step hands to its collaborators: the pixel for [draw_pixel]
    and the symbol read, which the left channel is made of. *)
Record StepEvent : Set :=
  { row : Z; col : Z; symbol_written : Z; symbol_read : Z }.

(** Lines 210-213: the head position, the symbol under it and its rule. *)
Definition fetch (program : gmap (Z * Z) Rule) (state : MachineState)
  : result (Z * Z * Rule) :=
  let tc := i state in
  read_sym ← Py.list_getitem (tape state) tc;
  rule ← Py.dict_getitem program (pc state, read_sym);
  Ok (tc, read_sym, rule).

(** Line 233: [(tc + rule.move) % N]. *)
Definition next_head (N tc move : Z) : result Z := Py.mod_ (tc + move) N.

(** Lines 227-235: write, place the pixel, move, change state, count. *)
Definition commit (N : Z) (state : MachineState) (tc read_sym : Z) (rule : Rule)
  : result (MachineState * StepEvent) :=
  let write_sym := write rule in
  tape1 ← Py.list_setitem (tape state) tc write_sym;
  q ← Py.floordiv (cycle state) N;
  row ← Py.mod_ q N;
  i1 ← next_head N tc (move rule);
  Ok ({| tape := tape1; i := i1; pc := next_pc rule; cycle := cycle state + 1 |},
      {| row := row; col := tc; symbol_written := write_sym; symbol_read := read_sym |}).

(** One step of the tape machine: the loop body without its audio lines. *)
Definition machine_step (program : gmap (Z * Z) Rule) (N : Z) (state : MachineState)
  : result (MachineState * StepEvent) :=
  '(tc, read_sym, rule) ← fetch program state;
  commit N state tc read_sym rule.

(** The states the loop keeps the machine in: a tape of [N] cells and the
    head on one of them. *)
Definition wf_state (N : Z) (state : MachineState) : Prop :=
  Z.of_nat (length (tape state)) = N ∧ 0 <= i state < N.

(** [n] steps in a row, stopping at the first raise. *)
Fixpoint machine_steps (program : gmap (Z * Z) Rule) (N : Z) (n : nat)
    (state : MachineState) : result MachineState :=
  match n with
  | O => Ok state
  | S n' => '(state', _) ← machine_step program N state;
            machine_steps program N n' state'
  end.

(** ** The delay knob and the sample synthesizer *)

(** [delay_samples] and [delay_line], the two variables [set_delay] owns.
    [line_obj] names the deque object bound to [delay_line]: it counts the
    deques constructed so far, so it changes exactly when the variable is
    bound to a new object. *)
Record Delay : Set := { delay_samples : Z; delay_line : Py.deque; line_obj : nat }.

Definition MIN_DELAY : Z := 0.

(** Lines 107-110. *)
Definition initial_delay : Delay :=
  let delay_samples := 0 in
  {| delay_samples := delay_samples;
     delay_line := Py.deque_of (Py.list_repeat 0 (Z.max 1 delay_samples))
                               (Z.max 1 delay_samples);
     line_obj := O |}.

(** Lines 142-151; [MAX_DELAY] is [audio_hz]. *)
Definition set_delay (MAX_DELAY : Z) (d : Delay) (new_delay : Z) : Delay :=
  let new_delay := Z.max MIN_DELAY (Z.min MAX_DELAY new_delay) in
  if new_delay =? delay_samples d then d
  else if new_delay <=? 0
  then {| delay_samples := new_delay;
          delay_line := Py.deque_of [0] 1;
          line_obj := S (line_obj d) |}
  else {| delay_samples := new_delay;
          delay_line := Py.deque_of (Py.list_repeat 0 new_delay) new_delay;
          line_obj := S (line_obj d) |}.

(** Lines 38-39. *)
Definition bit_to_i16 (bit : bool) : Z := if bit then 12000 else 0.

(** Lines 221-222: append, then pop from the left. *)
Definition push_pop (line : Py.deque) (w_now : Z) : result (Z * Py.deque) :=
  Py.popleft (Py.append line w_now).

(** Lines 216-222: the stereo pair of one step. *)
Definition synth (d : Delay) (read_sym write_sym : Z) : result (Z * Z * Delay) :=
  let L := bit_to_i16 (read_sym =? 1) in
  let w_now := bit_to_i16 (write_sym =? 1) in
  if delay_samples d <=? 0 then Ok (L, w_now, d)
  else
    '(R, line) ← push_pop (delay_line d) w_now;
    Ok (L, R, {| delay_samples := delay_samples d; delay_line := line;
                 line_obj := line_obj d |}).

(** The right-channel values a run of pushes produces, oldest first. *)
Fixpoint push_pops (line : Py.deque) (ws : list Z) : result (list Z * Py.deque) :=
  match ws with
  | [] => Ok ([], line)
  | w :: rest =>
      '(R, line1) ← push_pop line w;
      '(Rs, line2) ← push_pops line1 rest;
      Ok (R :: Rs, line2)
  end.

(** ** The step scheduler (lines 125-127 and 202-209) *)

Definition base_steps (audio_hz fps_target : Z) : Z := audio_hz / fps_target.
Definition rem_steps (audio_hz fps_target : Z) : Z := audio_hz `mod` fps_target.

(** Lines 202-206: this frame's [steps] and the accumulator it leaves. *)
Definition schedule (audio_hz fps_target step_acc : Z) : Z * Z :=
  let steps := base_steps audio_hz fps_target in
  let step_acc := step_acc + rem_steps audio_hz fps_target in
  if fps_target <=? step_acc then (steps + 1, step_acc - fps_target)
  else (steps, step_acc).

(** Line 209: the number of times the step loop runs. *)
Definition steps_run (steps : Z) : Z := Z.max 1 steps.

(** The [steps] values of [n] frames in a row, and the accumulator after
    them. *)
Fixpoint schedule_frames (audio_hz fps_target : Z) (n : nat) (step_acc : Z)
  : list Z * Z :=
  match n with
  | O => ([], step_acc)
  | S n' =>
      let '(steps, acc1) := schedule audio_hz fps_target step_acc in
      let '(rest, acc2) := schedule_frames audio_hz fps_target n' acc1 in
      (steps :: rest, acc2)
  end.

Definition sum_list (l : list Z) : Z := foldr Z.add 0 l.

(** ** The playback driver (lines 166-168 and 239-257) *)

Definition PRIME_CHUNKS : Z := 3.

Record Playback : Set := { started_audio : bool; prime_count : Z }.

Definition initial_playback : Playback :=
  {| started_audio := false; prime_count := 0 |}.

(** The two calls the driver makes on the mixer channel. *)
Inductive chan_call (Sound : Type) : Type :=
  | chan_play (snd : Sound)
  | chan_queue (snd : Sound).

Arguments chan_play {Sound} snd.
Arguments chan_queue {Sound} snd.

(** Lines 243-257 for one sealed packet.  [busy] is what [chan.get_busy()]
    answers at this moment; the priming branch does not ask. *)
Definition dispatch {Sound} (pb : Playback) (busy : bool) (snd : Sound)
  : Playback * chan_call Sound :=
  if negb (started_audio pb) then
    let call := if prime_count pb =? 0 then chan_play snd else chan_queue snd in
    let prime_count := prime_count pb + 1 in
    ({| started_audio := if PRIME_CHUNKS <=? prime_count then true else started_audio pb;
        prime_count := prime_count |}, call)
  else
    (pb, if busy then chan_queue snd else chan_play snd).

(** The driver over a run of sealed packets, each with the device's answer
    at its time; the calls come out in order. *)
Fixpoint dispatch_all {Sound} (pb : Playback) (packets : list (bool * Sound))
  : Playback * list (chan_call Sound) :=
  match packets with
  | [] => (pb, [])
  | (busy, snd) :: rest =>
      let '(pb1, call) := dispatch pb busy snd in
      let '(pb2, calls) := dispatch_all pb1 rest in
      (pb2, call :: calls)
  end.

(** ** The frame loop of run_ftmp_forever (lines 89-277)

    Rendering, the caption and the clock are left to pygame; what stays is
    the state the core owns.  A byte is a [Z] in [0, 256). *)

Definition CHUNK_MS : Z := 60.

(** Line 120.  [int(audio_hz * CHUNK_MS / 1000)] truncates a float quotient;
    for the rates a sound device takes that is the truncated integer
    quotient. *)
Definition CHUNK_FRAMES (audio_hz : Z) : Z :=
  Z.max 256 (Z.quot (audio_hz * CHUNK_MS) 1000).

Definition CHUNK_BYTES (audio_hz : Z) : Z := CHUNK_FRAMES audio_hz * 4.

(** [struct.pack("<h", v)]: two bytes, low one first, two's complement. *)
Definition pack_h (v : Z) : result (list Z) :=
  if (-32768 <=? v) && (v <=? 32767)
  then let u := v `mod` 65536 in Ok [u `mod` 256; u / 256]
  else Raise StructError.

(** Line 224: [struct.pack("<hh", L, R)]. *)
Definition pack_hh (L R : Z) : result (list Z) :=
  l ← pack_h L; r ← pack_h R; Ok (l ++ r).

Record Session : Type :=
  { state : MachineState;
    delay : Delay;
    step_acc : Z;
    chunk : list Z;
    playback : Playback;
    (** the calls made on [chan] so far, oldest first *)
    chan : list (chan_call (list Z)) }.

(** Lines 210-257: one turn of the step loop.  [busy] is the device's
    answer should this turn seal a packet in the steady state. *)
Definition loop_body (program : gmap (Z * Z) Rule) (N audio_hz : Z) (busy : bool)
    (s : Session) : result Session :=
  '(tc, read_sym, rule) ← fetch program (state s);
  '(L, R, delay1) ← synth (delay s) read_sym (write rule);
  packed ← pack_hh L R;
  let chunk1 := chunk s ++ packed in
  '(state1, _) ← commit N (state s) tc read_sym rule;
  if CHUNK_BYTES audio_hz <=? Z.of_nat (length chunk1) then
    let '(playback1, call) := dispatch (playback s) busy chunk1 in
    Ok {| state := state1; delay := delay1; step_acc := step_acc s; chunk := [];
          playback := playback1; chan := chan s ++ [call] |}
  else
    Ok {| state := state1; delay := delay1; step_acc := step_acc s; chunk := chunk1;
          playback := playback s; chan := chan s |}.

(** Line 209: [for _ in range(n)]; the [k]-th turn of the frame gets the
    answer [busy k]. *)
Fixpoint step_loop (program : gmap (Z * Z) Rule) (N audio_hz : Z) (busy : nat → bool)
    (k n : nat) (s : Session) : result Session :=
  match n with
  | O => Ok s
  | S n' => s1 ← loop_body program N audio_hz (busy k) s;
            step_loop program N audio_hz busy (S k) n' s1
  end.

(** The input events the core acts on.  [K_MINUS] and [K_EQUALS] stand for
    every key bound to the coarse knob (keypad minus; plus and keypad
    plus); every key the core ignores is [K_other]. *)
Inductive event : Set :=
  | QUIT
  | K_ESCAPE | K_q
  | K_r
  | K_MINUS | K_EQUALS
  | K_LEFTBRACKET | K_RIGHTBRACKET
  | K_other.

(** Lines 173-199 for one event: the session and the [running] flag. *)
Definition handle_event (N audio_hz : Z) (acc : Session * bool) (e : event)
  : result (Session * bool) :=
  let '(s, running) := acc in
  let with_delay v :=
    {| state := state s; delay := set_delay audio_hz (delay s) v;
       step_acc := step_acc s; chunk := chunk s; playback := playback s;
       chan := chan s |} in
  match e with
  | QUIT | K_ESCAPE | K_q => Ok (s, false)
  | K_r =>
      state1 ← reset_machine (state s) N;
      Ok ({| state := state1; delay := delay s; step_acc := step_acc s;
             chunk := chunk s; playback := playback s; chan := chan s |}, running)
  | K_MINUS => Ok (with_delay (delay_samples (delay s) - 64), running)
  | K_EQUALS => Ok (with_delay (delay_samples (delay s) + 64), running)
  | K_LEFTBRACKET => Ok (with_delay (delay_samples (delay s) - 1), running)
  | K_RIGHTBRACKET => Ok (with_delay (delay_samples (delay s) + 1), running)
  | K_other => Ok (s, running)
  end.

Fixpoint handle_events (N audio_hz : Z) (acc : Session * bool) (es : list event)
  : result (Session * bool) :=
  match es with
  | [] => Ok acc
  | e :: rest => acc1 ← handle_event N audio_hz acc e;
                 handle_events N audio_hz acc1 rest
  end.

(** Lines 171-275: one frame, from the pending events to the last step. *)
Definition frame (program : gmap (Z * Z) Rule) (N fps_target audio_hz : Z)
    (events : list event) (busy : nat → bool) (s : Session) : result (Session * bool) :=
  '(s1, running) ← handle_events N audio_hz (s, true) events;
  let '(steps, step_acc1) := schedule audio_hz fps_target (step_acc s1) in
  let s2 := {| state := state s1; delay := delay s1; step_acc := step_acc1;
               chunk := chunk s1; playback := playback s1; chan := chan s1 |} in
  s3 ← step_loop program N audio_hz busy O (Z.to_nat (steps_run steps)) s2;
  Ok (s3, running).

(** The [while running] loop over the frames whose inputs are given; it
    stops after the frame that clears [running]. *)
Fixpoint frames (program : gmap (Z * Z) Rule) (N fps_target audio_hz : Z)
    (inputs : list (list event * (nat → bool))) (s : Session) : result Session :=
  match inputs with
  | [] => Ok s
  | (events, busy) :: rest =>
      match frame program N fps_target audio_hz events busy s with
      | Raise e => Raise e
      | Ok (s1, true) => frames program N fps_target audio_hz rest s1
      | Ok (s1, false) => Ok s1
      end
  end.

(** Lines 89-168: the session the first frame starts from. *)
Definition start (fs : file_system) (N fps audio_hz : Z) (program_path : string)
  : result (gmap (Z * Z) Rule * Session) :=
  program ← load_program fs program_path;
  _ ← Py.floordiv audio_hz fps;
  state0 ← reset_machine {| tape := Py.list_repeat 0 N; i := 0; pc := 1; cycle := 0 |} N;
  Ok (program,
      {| state := state0; delay := initial_delay; step_acc := 0; chunk := [];
         playback := initial_playback; chan := [] |}).

(** ** Reachability and the shape of a rule table *)

(** The machine states a run can be in: what [reset_machine] returns, and
    what a step that did not raise leaves. *)
Inductive reachable (program : gmap (Z * Z) Rule) (N : Z) : MachineState → Prop :=
  | reach_reset state0 state :
      reset_machine state0 N = Ok state → reachable program N state
  | reach_step state state' ev :
      reachable program N state →
      machine_step program N state = Ok (state', ev) →
      reachable program N state'.

(** The control states that appear in a key of the table. *)
Definition key_states (program : gmap (Z * Z) Rule) : gset Z :=
  set_map fst (dom program).

Definition declared (program : gmap (Z * Z) Rule) (pc : Z) : Prop :=
  pc ∈ key_states program.

(** A table that never leaves its declared states nor the symbols 0 and 1:
    state 1, where every run starts, is declared, and every rule goes to a
    declared state and writes 0 or 1. *)
Definition closed_table (program : gmap (Z * Z) Rule) : Prop :=
  declared program 1
  ∧ map_Forall (fun _ rule => declared program (next_pc rule)
                              ∧ (write rule = 0 ∨ write rule = 1)) program.

#[export] Instance closed_table_dec program : Decision (closed_table program).
Proof. unfold closed_table, declared. apply _. Defined.

(** What a run under a closed, validated table keeps true. *)
Definition run_invariant (program : gmap (Z * Z) Rule) (N : Z) (state : MachineState)
  : Prop :=
  wf_state N state
  ∧ declared program (pc state)
  ∧ Forall (fun c => c = 0 ∨ c = 1) (tape state).

(** ** The loader's own tests on a row

    These follow the loader line by line; the conditions a reader of the
    specification would write are in [Stated] below. *)




(** Some row gives the rule of state [pc] for symbol [read]. *)
Definition has_rule (rdr : list (gmap string (option string))) (pc read : Z) : bool :=
  existsb (fun row => match int_field row "pc", int_field row "read" with
                      | Ok p, Ok r => (p =? pc) && (r =? read)
                      | _, _ => false
                      end) rdr.

(** Some row is about state [pc]. *)
Definition has_state (rdr : list (gmap string (option string))) (pc : Z) : bool :=
  existsb (fun row => match int_field row "pc" with
                      | Ok p => p =? pc
                      | Raise _ => false
                      end) rdr.


(** ** The failure conditions in the words of the specification

    Nothing here calls the loader, the functions it is made of, or the
    built-ins of [Py]: an integer literal is described by its shape, a
    move token by trimming, capitals and the three letters, a missing rule
    by the rows. *)

Module Stated.

Definition chars (s : string) : list ascii := String.list_ascii_of_string s.

Definition is_digit (c : ascii) : bool :=
  bool_decide (c ∈ ["0"; "1"; "2"; "3"; "4"; "5"; "6"; "7"; "8"; "9"]%char).

Definition digit_value (c : ascii) : Z := Z.of_nat (nat_of_ascii c) - 48.

Definition is_underscore (c : ascii) : bool := bool_decide (c = "_"%char).

(** The blanks around a number: TAB, LF, VT, FF, CR and SPACE. *)
Definition is_blank (c : ascii) : bool :=
  bool_decide (nat_of_ascii c ∈ [9; 10; 11; 12; 13; 32]%nat).


Fixpoint drop_blanks (blank : ascii → bool) (l : list ascii) : list ascii :=
  match l with
  | c :: r => if blank c then drop_blanks blank r else l
  | [] => []
  end.

(** The text without the blanks before and after it. *)
Definition trim (blank : ascii → bool) (l : list ascii) : list ascii :=
  reverse (drop_blanks blank (reverse (drop_blanks blank l))).





Definition negative (l : list ascii) : bool :=
  match l with c :: _ => bool_decide (c = "-"%char) | [] => false end.

(** The text after its sign, if it has one. *)
Definition unsigned (l : list ascii) : list ascii :=
  match l with
  | c :: r => if bool_decide (c ∈ ["+"; "-"]%char) then r else l
  | [] => []
  end.

Definition starts_with_digit (l : list ascii) : bool :=
  match l with c :: _ => is_digit c | [] => false end.

Definition ends_with_digit (l : list ascii) : bool :=
  match last l with Some c => is_digit c | None => false end.

Fixpoint no_double_underscore (l : list ascii) : bool :=
  match l with
  | [] => true
  | c :: r =>
      match r with
      | c' :: _ => negb (is_underscore c && is_underscore c')
      | [] => true
      end && no_double_underscore r
  end.

(** The values of the digits of a text, in order, underscores left out. *)
Definition digit_values (l : list ascii) : list Z :=
  omap (fun c => if is_digit c then Some (digit_value c) else None) l.


Definition max_digits : Z := 4300.

(** An integer literal: blanks, an optional sign, then digits and
    underscores that start and end with a digit and have no two underscores
    in a row, with no more than 4300 digits; blanks may follow. *)
Definition integer_literal (s : string) : bool :=
  let body := unsigned (trim is_blank (chars s)) in
  starts_with_digit body
  && ends_with_digit body
  && forallb (fun c => is_digit c || is_underscore c) body
  && no_double_underscore body
  && (Z.of_nat (length (digit_values body)) <=? max_digits).

(** The number an integer literal writes. *)
Definition literal_value (s : string) : Z :=
  let l := trim is_blank (chars s) in
  (if negative l then -1 else 1)
  * foldl (fun n d => 10 * n + d) 0 (digit_values (unsigned l)).

(** The text of a cell, when the row has one under [key]. *)
Definition cell (row : gmap string (option string)) (key : string) : option string :=
  match row !! key with
  | Some (Some s) => Some s
  | _ => None
  end.

(** The number in a cell, when the cell is there and holds an integer
    literal. *)
Definition number (row : gmap string (option string)) (key : string) : option Z :=
  match cell row key with
  | Some s => if integer_literal s then Some (literal_value s) else None
  | None => None
  end.




(** The row is the rule of state [pc] for symbol [read]. *)
Definition gives (pc read : Z) (row : gmap string (option string)) : bool :=
  bool_decide (number row "pc" = Some pc ∧ number row "read" = Some read).

(** Some state a row is about has no row for symbol 0 or none for 1. *)
Definition incomplete (rdr : list (gmap string (option string))) : bool :=
  existsb (fun row => match number row "pc" with
                      | Some pc => existsb (fun read => negb (existsb (gives pc read) rdr))
                                           [0; 1]
                      | None => false
                      end) rdr.






End Stated.

(** ** Rendering helpers of run_ftmp_forever *)

Definition TEAL : Z * Z * Z := (0, 70, 70).

Record Rect : Set := { rect_x : Z; rect_y : Z; rect_w : Z; rect_h : Z }.

(** Lines 153-157: [draw_pixel] inks nothing unless the symbol is 1, and
    then one [scale]-sized square; what comes back is the call it makes on
    [pygame.draw.rect], colour and rectangle. *)
Definition draw_pixel (scale draw_alpha : Z) (row col sym : Z)
  : option (Z * Z * Z * Z * Rect) :=
  if negb (sym =? 1) then None
  else
    let rect := {| rect_x := col * scale; rect_y := row * scale;
                   rect_w := scale; rect_h := scale |} in
    Some (TEAL.1.1, TEAL.1.2, TEAL.2, draw_alpha, rect).

(** The two ink knobs (lines 112-113) and their keys (lines 192-199). *)
Record Ink : Set := { draw_alpha : Z; decay_alpha : Z }.

Definition initial_ink : Ink := {| draw_alpha := 6; decay_alpha := 2 |}.

Inductive ink_key : Set := K_COMMA | K_PERIOD | K_SEMICOLON | K_QUOTE.

Definition handle_ink_key (ink : Ink) (k : ink_key) : Ink :=
  match k with
  | K_COMMA => {| draw_alpha := draw_alpha ink;
                  decay_alpha := Z.max 0 (decay_alpha ink - 1) |}
  | K_PERIOD => {| draw_alpha := draw_alpha ink;
                   decay_alpha := Z.min 50 (decay_alpha ink + 1) |}
  | K_SEMICOLON => {| draw_alpha := Z.max 0 (draw_alpha ink - 1);
                      decay_alpha := decay_alpha ink |}
  | K_QUOTE => {| draw_alpha := Z.min 255 (draw_alpha ink + 1);
                  decay_alpha := decay_alpha ink |}
  end.

(** ** What a session keeps true *)

Definition call_sound {Sound} (c : chan_call Sound) : Sound :=
  match c with chan_play snd | chan_queue snd => snd end.

(** Every byte the session has produced so far, in order: the packets
    handed to the channel, then the packet being filled. *)
Definition stream (s : Session) : list Z :=
  concat (call_sound <$> chan s) ++ chunk s.

(** The packet being filled holds whole sample pairs and is not yet full;
    every packet handed over has the full size. *)
Definition packet_inv (audio_hz : Z) (s : Session) : Prop :=
  (Z.of_nat (length (chunk s))) `mod` 4 = 0
  ∧ Z.of_nat (length (chunk s)) < CHUNK_BYTES audio_hz
  ∧ Forall (fun c => Z.of_nat (length (call_sound c)) = CHUNK_BYTES audio_hz) (chan s).

(** The delay line has the capacity its knob asks for, never holds more
    than that, and holds only the two sample values. *)
Definition delay_inv (d : Delay) : Prop :=
  0 <= delay_samples d
  ∧ Py.maxlen (delay_line d) = Z.max 1 (delay_samples d)
  ∧ Z.of_nat (length (Py.items (delay_line d))) <= Py.maxlen (delay_line d)
  ∧ Forall (fun x => x = 0 ∨ x = 12000) (Py.items (delay_line d)).

Definition session_inv (program : gmap (Z * Z) Rule) (N : Z) (s : Session) : Prop :=
  run_invariant program N (state s) ∧ delay_inv (delay s).

(** A session with no audio produced yet (lines 107-127 and 166-168). *)
Definition fresh_session (state : MachineState) : Session :=
  {| state := state; delay := initial_delay; step_acc := 0; chunk := [];
     playback := initial_playback; chan := [] |}.

Definition is_quit (e : event) : bool :=
  match e with QUIT | K_ESCAPE | K_q => true | _ => false end.

(** ** Sample rule sources *)

Definition header : list string := ["pc"; "read"; "write"; "move"; "next_pc"].

(** The two-state oscillator of the specification's end-to-end property. *)
Definition oscillator_fs : file_system :=
  {[ "program.csv" := plain [ header;
                        ["1"; "0"; "1"; "R"; "2"];
                        ["1"; "1"; "1"; "R"; "2"];
                        ["2"; "0"; "0"; "R"; "1"];
                        ["2"; "1"; "0"; "R"; "1"] ] ]}.

(** State 1 keeps what it reads and stays in state 1. *)
Definition copier_fs : file_system :=
  {[ "program.csv" := plain [ header;
                        ["1"; "0"; "0"; "R"; "1"];
                        ["1"; "1"; "1"; "R"; "1"] ] ]}.

(** Both rules of state 1 go to state 2, which has no row. *)
Definition dangling_fs : file_system :=
  {[ "program.csv" := plain [ header;
                        ["1"; "0"; "1"; "R"; "2"];
                        ["1"; "1"; "1"; "R"; "2"] ] ]}.


(** A literal of [n] digits, and a source whose one row has a [pc] cell of
    4301 digits. *)
Definition long_literal (n : nat) : string :=
  String.string_of_list_ascii (replicate n "1"%char).

Definition overlong_fs : file_system :=
  {[ "program.csv" := plain [ header; [long_literal 4301; "0"; "0"; "L"; "1"] ] ]}.

(** State 3 with its [read=0] row only. *)
Definition partial_fs : file_system :=
  {[ "program.csv" := plain [ header;
                        ["1"; "0"; "1"; "R"; "3"];
                        ["1"; "1"; "1"; "R"; "3"];
                        ["3"; "0"; "0"; "L"; "1"] ] ]}.

(** The table the oscillator source loads to. *)
Definition oscillator : gmap (Z * Z) Rule :=
  {[ (1, 0) := {| write := 1; move := 1; next_pc := 2 |};
     (1, 1) := {| write := 1; move := 1; next_pc := 2 |};
     (2, 0) := {| write := 0; move := 1; next_pc := 1 |};
     (2, 1) := {| write := 0; move := 1; next_pc := 1 |} ]}.

Definition blank_state : MachineState := {| tape := []; i := 0; pc := 1; cycle := 0 |}.

(** * Properties *)

(** ** The built-ins on sample inputs *)

Example int_of_str_signed : Py.int_of_str " -1_000 " = Some (-1000).
Proof. reflexivity. Qed.

Example int_of_str_leading_zeros : Py.int_of_str "007" = Some 7.
Proof. reflexivity. Qed.

Example int_of_str_rejects :
  Py.int_of_str <$> ["x"; ""; "+"; "1__0"; "_1"; "1_"; "1 2"; "0x10"; "- 5"; "-_5"]
  = [None; None; None; None; None; None; None; None; None; None].
Proof. reflexivity. Qed.

(** [int] does not skip the separators FS..US that [strip] removes. *)
Example int_of_str_separator :
  Py.int_of_str (String (ascii_of_nat 28) "5") = None
  ∧ Py.strip (String (ascii_of_nat 28) "5") = "5".
Proof. split; reflexivity. Qed.

Example move_token_normalised :
  move_of (Py.upper (Py.strip "  l ")) = Some (-1)
  ∧ move_of (Py.upper (Py.strip "Left")) = None.
Proof. split; reflexivity. Qed.

Example list_getitem_from_the_end : Py.list_getitem [1; 2; 3] (-1) = Ok 3.
Proof. reflexivity. Qed.

Example short_row_has_none :
  dict_row ["a"; "b"] ["1"] !! "b" = Some None.
Proof. reflexivity. Qed.

Example append_on_full_line_drops_oldest :
  Py.append (Py.Deque [1; 2; 3] 3) 4 = Py.Deque [2; 3; 4] 3.
Proof. reflexivity. Qed.

(** ** The step scheduler *)

Section Scheduler.

Variables audio_hz fps : Z.
Hypothesis fps_pos : 0 < fps.

Lemma schedule_spec acc :
  0 <= acc < fps →
  let r := schedule audio_hz fps acc in
  (r.1 = base_steps audio_hz fps ∨ r.1 = base_steps audio_hz fps + 1)
  ∧ 0 <= r.2 < fps
  ∧ fps * (r.1 - base_steps audio_hz fps) + r.2 = acc + rem_steps audio_hz fps.
Proof.
  intros Hacc. unfold schedule, rem_steps.
  pose proof (Z.mod_pos_bound audio_hz fps fps_pos) as Hrem.
  destruct (Z.leb_spec fps (acc + audio_hz `mod` fps)); simpl; lia.
Qed.

(** Over [n] frames the accumulator stays a remainder and the carries it
    gave out are accounted for exactly. *)
Lemma schedule_frames_spec n : ∀ acc,
  0 <= acc < fps →
  let r := schedule_frames audio_hz fps n acc in
  length r.1 = n
  ∧ Forall (fun s => s = base_steps audio_hz fps ∨ s = base_steps audio_hz fps + 1) r.1
  ∧ 0 <= r.2 < fps
  ∧ fps * (sum_list r.1 - Z.of_nat n * base_steps audio_hz fps) + r.2
    = acc + Z.of_nat n * rem_steps audio_hz fps.
Proof.
  induction n as [|n IH]; intros acc Hacc.
  - simpl. repeat split; try lia. constructor.
  - cbn [schedule_frames].
    pose proof (schedule_spec acc Hacc) as Hs.
    destruct (schedule audio_hz fps acc) as [steps acc1]. simpl in Hs.
    destruct Hs as (Hsteps & Hacc1 & Hcarry).
    specialize (IH acc1 Hacc1).
    destruct (schedule_frames audio_hz fps n acc1) as [rest acc2]. simpl in IH |- *.
    destruct IH as (Hlen & Hall & Hacc2 & Hsum).
    repeat split; try lia. by constructor.
Qed.

End Scheduler.

Lemma steps_run_fixed (l : list Z) :
  Forall (fun s => 1 <= s) l → steps_run <$> l = l.
Proof.
  induction 1 as [|s l Hs _ IH]; [done|].
  rewrite fmap_cons, IH. unfold steps_run. f_equal. lia.
Qed.

Lemma steps_run_floor (l : list Z) :
  Forall (fun s => s <= 1) l → sum_list (steps_run <$> l) = Z.of_nat (length l).
Proof.
  induction 1 as [|s l Hs _ IH]; [done|].
  rewrite fmap_cons. unfold sum_list in *. cbn [foldr length]. rewrite IH.
  unfold steps_run. lia.
Qed.

(** C1, as amended.  Over [fps] frames in a row, from any accumulator in
    [0, fps), the scheduler's [steps] values add up to [audio_hz] exactly
    and the accumulator is back where it started.  The step loop runs
    [max(1, steps)] times, and those counts add up to
    [max(audio_hz, fps)]: to [audio_hz] when [audio_hz >= fps], and to
    [fps] when the rate is below the frame rate. *)
Theorem schedule_rate_exact (audio_hz fps acc : Z) :
  0 < audio_hz → 0 < fps → 0 <= acc < fps →
  let r := schedule_frames audio_hz fps (Z.to_nat fps) acc in
  sum_list r.1 = audio_hz
  ∧ r.2 = acc
  ∧ sum_list (steps_run <$> r.1) = Z.max audio_hz fps.
Proof.
  intros Ha Hf Hacc.
  pose proof (schedule_frames_spec audio_hz fps Hf (Z.to_nat fps) acc Hacc) as H.
  destruct (schedule_frames audio_hz fps (Z.to_nat fps) acc) as [l acc']. simpl in *.
  destruct H as (Hlen & Hall & Hacc' & Hsum).
  rewrite Z2Nat.id in Hsum by lia.
  pose proof (Z.div_mod audio_hz fps ltac:(lia)) as Hdm.
  unfold base_steps, rem_steps in *.
  set (b := audio_hz / fps) in *. set (m := audio_hz `mod` fps) in *.
  assert (Hk : sum_list l - fps * b - m = 0) by nia.
  assert (Hexact : sum_list l = audio_hz) by lia.
  split; [done|]. split; [nia|].
  destruct (Z_lt_le_dec audio_hz fps) as [Hlow|Hhigh].
  - assert (b = 0) as Hb by (subst b; apply Z.div_small; lia).
    rewrite steps_run_floor.
    + rewrite Hlen, Z2Nat.id; lia.
    + eapply Forall_impl; [exact Hall|]. simpl. intros s Hs. lia.
  - assert (1 <= b) as Hb.
    { subst b. apply Z.div_le_lower_bound; lia. }
    rewrite steps_run_fixed.
    + lia.
    + eapply Forall_impl; [exact Hall|]. simpl. intros s Hs. lia.
Qed.

Lemma schedule_rate_exact_witness :
  let r := schedule_frames 22000 60 (Z.to_nat 60) 17 in
  sum_list r.1 = 22000 ∧ r.2 = 17 ∧ sum_list (steps_run <$> r.1) = Z.max 22000 60.
Proof. apply (schedule_rate_exact 22000 60 17); lia. Defined.

(** C1 as stated fails below the frame rate: at 1 Hz and 2 frames per
    second the two frames run one step each, two steps where the claim
    promises [audio_hz = 1]. *)
Lemma schedule_floor_drifts :
  0 < 1 ∧ 0 < 2 ∧ 0 <= 0 < 2
  ∧ (schedule_frames 1 2 (Z.to_nat 2) 0).1 = [0; 1]
  ∧ sum_list (steps_run <$> (schedule_frames 1 2 (Z.to_nat 2) 0).1) = 2
  ∧ sum_list (steps_run <$> (schedule_frames 1 2 (Z.to_nat 2) 0).1) ≠ 1.
Proof. repeat split; try lia; try reflexivity. vm_compute. discriminate. Qed.

(** ** The delay line *)

Lemma deque_of_zeros_from (k : nat) : ∀ (j : nat) (D : Z),
  Z.of_nat (j + k) <= D →
  foldl Py.append (Py.Deque (replicate j 0) D) (replicate k 0)
  = Py.Deque (replicate (j + k) 0) D.
Proof.
  induction k as [|k IH]; intros j D Hle.
  - by rewrite Nat.add_0_r.
  - cbn [replicate foldl]. unfold Py.append at 2. cbn [Py.items Py.maxlen].
    rewrite length_app, length_replicate. cbn [length].
    destruct (Z.ltb_spec D (Z.of_nat (j + 1))); [lia|].
    replace (replicate j 0 ++ [0]) with (replicate (S j) 0)
      by (rewrite replicate_S_end; done).
    rewrite IH by lia.
    assert ((j + S k)%nat = (S j + k)%nat) as -> by lia. done.
Qed.

(** A line made for capacity [D] holds [D] zeros. *)
Lemma deque_of_zeros (D : Z) :
  0 <= D →
  Py.deque_of (Py.list_repeat 0 D) D = Py.Deque (replicate (Z.to_nat D) 0) D.
Proof.
  intros HD. unfold Py.deque_of, Py.list_repeat.
  apply (deque_of_zeros_from (Z.to_nat D) 0 D). lia.
Qed.

(** Pushing onto a line one short of its capacity drops nothing: the pop
    takes the head of what is stored. *)
Lemma push_pops_short (ws : list Z) : ∀ (q : list Z) (D : Z),
  Z.of_nat (length q) + 1 = D →
  push_pops (Py.Deque q D) ws
  = Ok (take (length ws) (q ++ ws), Py.Deque (drop (length ws) (q ++ ws)) D).
Proof.
  induction ws as [|w ws IH]; intros q D Hlen.
  - cbn. by rewrite take_0, drop_0, app_nil_r.
  - cbn [push_pops]. unfold push_pop, Py.append. cbn [Py.items Py.maxlen].
    rewrite length_app. cbn [length].
    destruct (Z.ltb_spec D (Z.of_nat (length q + 1))); [lia|].
    replace (q ++ w :: ws) with ((q ++ [w]) ++ ws) by (by rewrite <- app_assoc).
    destruct (q ++ [w]) as [|h t] eqn:Hq.
    { by destruct q. }
    unfold Py.popleft. cbn [Py.items Py.maxlen mbind result_bind].
    assert (length t = length q) as Ht.
    { apply (f_equal length) in Hq. rewrite length_app in Hq. cbn in Hq. lia. }
    rewrite IH by lia. cbn. done.
Qed.

(** The first push onto a full line of zeros drops one of them, so the
    line behaves as if it had been made one zero short. *)
Lemma push_pop_full_zeros (D : Z) (w : Z) :
  1 <= D →
  push_pop (Py.Deque (replicate (Z.to_nat D) 0) D) w
  = push_pop (Py.Deque (replicate (Z.to_nat (D - 1)) 0) D) w.
Proof.
  intros HD. unfold push_pop, Py.append. cbn [Py.items Py.maxlen].
  rewrite !length_app, !length_replicate. cbn [length].
  destruct (Z.ltb_spec D (Z.of_nat (Z.to_nat D + 1))); [|lia].
  destruct (Z.ltb_spec D (Z.of_nat (Z.to_nat (D - 1) + 1))); [lia|].
  replace (Z.to_nat D) with (S (Z.to_nat (D - 1))) by lia.
  done.
Qed.

(** What the code does: a line made for capacity [D] delays by [D - 1]
    pushes, behind [D - 1] zeros. *)
Lemma delay_is_one_short (D : Z) (ws : list Z) :
  1 <= D →
  fst <$> push_pops (Py.deque_of (Py.list_repeat 0 D) D) ws
  = Ok (take (length ws) (replicate (Z.to_nat (D - 1)) 0 ++ ws)).
Proof.
  intros HD. rewrite deque_of_zeros by lia.
  destruct ws as [|w ws]; [done|].
  cbn [push_pops]. rewrite push_pop_full_zeros by done.
  change (fst <$> push_pops (Py.Deque (replicate (Z.to_nat (D - 1)) 0) D) (w :: ws)
          = Ok (take (length (w :: ws)) (replicate (Z.to_nat (D - 1)) 0 ++ w :: ws))).
  rewrite push_pops_short; [done|].
  rewrite length_replicate. lia.
Qed.

(** After any push-then-pop the line is one item short of [D]. *)
Lemma length_after_push_pop (D : Z) (ws : list Z) (Rs : list Z) (line : Py.deque) :
  1 <= D → ws ≠ [] →
  push_pops (Py.deque_of (Py.list_repeat 0 D) D) ws = Ok (Rs, line) →
  Z.of_nat (length (Py.items line)) = D - 1.
Proof.
  intros HD Hne. rewrite deque_of_zeros by lia.
  destruct ws as [|w ws]; [done|].
  cbn [push_pops]. rewrite push_pop_full_zeros by done.
  change (push_pops (Py.Deque (replicate (Z.to_nat (D - 1)) 0) D) (w :: ws) = Ok (Rs, line)
          → Z.of_nat (length (Py.items line)) = D - 1).
  rewrite push_pops_short by (rewrite length_replicate; lia).
  intros [= _ <-]. cbn [Py.items].
  rewrite length_drop, length_app, length_replicate. cbn [length]. lia.
Qed.

(** C2: the code is one sample short of the claim.  With the knob at 5, a
    right channel fed 12000 and then zeros gives back four zeros and then
    the 12000, a delay of 4 samples where the claim has 5; the line of the
    specification's example, fed 1..7, gives four zeros and then 1, 2, 3,
    where the claim has five zeros and then 1, 2; and with the knob at 1
    the right channel carries the sample just written, with no silence
    before it. *)
Theorem delay_five_delays_by_four :
  fst <$> push_pops (delay_line (set_delay 22000 initial_delay 5))
                    [12000; 0; 0; 0; 0; 0; 0]
  = Ok [0; 0; 0; 0; 12000; 0; 0]
  ∧ fst <$> push_pops (Py.deque_of (Py.list_repeat 0 5) 5) [1; 2; 3; 4; 5; 6; 7]
    = Ok [0; 0; 0; 0; 1; 2; 3]
  ∧ delay_samples (set_delay 22000 initial_delay 1) = 1
  ∧ (fun r => r.1.2) <$> synth (set_delay 22000 initial_delay 1) 0 1 = Ok 12000.
Proof. repeat split; reflexivity. Qed.

(** C3: a resized line holds [D] zeros, but the first push-then-pop of the
    synthesizer leaves it one short, and there it stays.  With the knob at
    5: five zeros after [set_delay], four items after one step and after
    two. *)
Theorem delay_line_one_short :
  let d0 := set_delay 22000 initial_delay 5 in
  Py.items (delay_line d0) = [0; 0; 0; 0; 0]
  ∧ (fun r => Py.items (delay_line r.2)) <$> synth d0 0 1 = Ok [0; 0; 0; 12000]
  ∧ (fun r => length (Py.items (delay_line r.2)))
      <$> (r ← synth d0 0 1; synth r.2 0 1) = Ok 4%nat.
Proof. repeat split; reflexivity. Qed.

(** ** The tape machine *)

Lemma norm_index_in (len j : Z) : 0 <= j < len → Py.norm_index len j = Ok j.
Proof.
  intros Hj. unfold Py.norm_index.
  destruct (Z.ltb_spec j 0); [lia|].
  destruct (Z.leb_spec 0 j); [|lia].
  destruct (Z.ltb_spec j len); [done|lia].
Qed.

Lemma list_getitem_in (l : list Z) (j v : Z) :
  0 <= j → l !! Z.to_nat j = Some v → Py.list_getitem l j = Ok v.
Proof.
  intros Hj Hl. unfold Py.list_getitem.
  rewrite norm_index_in.
  - cbn. by rewrite Hl.
  - apply lookup_lt_Some in Hl. lia.
Qed.

Lemma list_setitem_in (l : list Z) (j v : Z) :
  0 <= j < Z.of_nat (length l) → Py.list_setitem l j v = Ok (<[Z.to_nat j := v]> l).
Proof. intros Hj. unfold Py.list_setitem. by rewrite norm_index_in. Qed.

(** A reset on a tape of at least one cell returns, and this is the state
    it returns. *)
Lemma reset_machine_ok (state : MachineState) (N : Z) :
  1 <= N →
  reset_machine state N
  = Ok {| tape := <[Z.to_nat (N / 4) := 1]> (replicate (Z.to_nat N) 0);
          i := 0; pc := 1; cycle := 0 |}.
Proof.
  intros HN.
  assert (0 <= N / 4 < N) as Hq.
  { split; [apply Z.div_pos; lia|apply Z.div_lt_upper_bound; lia]. }
  unfold reset_machine, Py.list_repeat.
  by rewrite list_setitem_in by (rewrite length_replicate; lia).
Qed.

Lemma reset_tape_cell (N k : Z) :
  1 <= N → 0 <= k < N →
  <[Z.to_nat (N / 4) := 1]> (replicate (Z.to_nat N) 0) !! Z.to_nat k
  = Some (if bool_decide (k = N / 4) then 1 else 0).
Proof.
  intros HN Hk.
  assert (0 <= N / 4 < N) as Hq.
  { split; [apply Z.div_pos; lia|apply Z.div_lt_upper_bound; lia]. }
  case_bool_decide as Hkq.
  - subst k. apply list_lookup_insert_eq. rewrite length_replicate. lia.
  - rewrite list_lookup_insert_ne by lia.
    apply lookup_replicate_2. lia.
Qed.

(** C6.  For a tape of [N >= 1] cells and whatever the state was,
    [reset_machine] returns: the tape is [N] cells long, cell [N // 4] holds
    1 and every other cell 0, the head is at 0, the control state is 1 and
    the step count is 0. *)
Theorem reset_machine_spec (state : MachineState) (N : Z) :
  1 <= N →
  ∃ state', reset_machine state N = Ok state'
    ∧ Z.of_nat (length (tape state')) = N
    ∧ (∀ k, 0 <= k < N →
         tape state' !! Z.to_nat k = Some (if bool_decide (k = N / 4) then 1 else 0))
    ∧ i state' = 0 ∧ pc state' = 1 ∧ cycle state' = 0.
Proof.
  intros HN. rewrite reset_machine_ok by done.
  eexists. split; [reflexivity|]. cbn.
  rewrite length_insert, length_replicate.
  repeat split; try lia.
  intros k Hk. by apply reset_tape_cell.
Qed.

Lemma reset_machine_spec_witness :
  ∃ state', reset_machine {| tape := [1; 1]; i := 1; pc := 2; cycle := 9 |} 8 = Ok state'
    ∧ Z.of_nat (length (tape state')) = 8
    ∧ (∀ k, 0 <= k < 8 →
         tape state' !! Z.to_nat k = Some (if bool_decide (k = 8 / 4) then 1 else 0))
    ∧ i state' = 0 ∧ pc state' = 1 ∧ cycle state' = 0.
Proof.
  apply (reset_machine_spec {| tape := [1; 1]; i := 1; pc := 2; cycle := 9 |} 8). lia.
Defined.

(** C7.  For [N >= 1] the head update always lands on the tape: the new
    head is in [0, N); from 0 a move of -1 goes to [N - 1], and from
    [N - 1] a move of +1 goes to 0. *)
Theorem head_update_wraps (N : Z) :
  1 <= N →
  (∀ tc move, ∃ h, next_head N tc move = Ok h ∧ 0 <= h < N)
  ∧ next_head N 0 (-1) = Ok (N - 1)
  ∧ next_head N (N - 1) 1 = Ok 0.
Proof.
  intros HN. unfold next_head, Py.mod_.
  destruct (Z.eqb_spec N 0); [lia|].
  repeat split.
  - intros tc move. eexists. split; [reflexivity|]. apply Z.mod_pos_bound. lia.
  - f_equal. symmetry. apply (Z.mod_unique _ _ (-1)); lia.
  - f_equal. replace (N - 1 + 1) with N by lia. apply Z.mod_same. lia.
Qed.

Lemma head_update_wraps_witness :
  (∀ tc move, ∃ h, next_head 8 tc move = Ok h ∧ 0 <= h < 8)
  ∧ next_head 8 0 (-1) = Ok (8 - 1)
  ∧ next_head 8 (8 - 1) 1 = Ok 0.
Proof. apply (head_update_wraps 8). lia. Defined.

(** A step from a well-formed state whose rule exists: what it returns. *)
Lemma machine_step_ok (program : gmap (Z * Z) Rule) (N : Z) (state : MachineState)
    (read_sym : Z) (rule : Rule) :
  wf_state N state →
  tape state !! Z.to_nat (i state) = Some read_sym →
  program !! (pc state, read_sym) = Some rule →
  machine_step program N state
  = Ok ({| tape := <[Z.to_nat (i state) := write rule]> (tape state);
           i := (i state + move rule) `mod` N;
           pc := next_pc rule;
           cycle := cycle state + 1 |},
        {| row := (cycle state / N) `mod` N; col := i state;
           symbol_written := write rule; symbol_read := read_sym |}).
Proof.
  intros [Hlen Hi] Hread Hrule.
  unfold machine_step, fetch, Py.dict_getitem.
  rewrite (list_getitem_in _ _ read_sym) by (done || lia). cbn.
  rewrite Hrule. cbn.
  unfold commit, next_head, Py.floordiv, Py.mod_.
  rewrite list_setitem_in by lia. cbn.
  destruct (Z.eqb_spec N 0); [lia|]. done.
Qed.

(** A step from a well-formed state with no rule for what it reads. *)
Lemma machine_step_no_rule (program : gmap (Z * Z) Rule) (N : Z) (state : MachineState)
    (read_sym : Z) :
  wf_state N state →
  tape state !! Z.to_nat (i state) = Some read_sym →
  program !! (pc state, read_sym) = None →
  machine_step program N state = Raise KeyError.
Proof.
  intros [Hlen Hi] Hread Hrule.
  unfold machine_step, fetch, Py.dict_getitem.
  rewrite (list_getitem_in _ _ read_sym) by (done || lia). cbn.
  by rewrite Hrule.
Qed.

Lemma wf_state_read (N : Z) (state : MachineState) :
  wf_state N state → ∃ read_sym, tape state !! Z.to_nat (i state) = Some read_sym.
Proof.
  intros [Hlen Hi]. apply lookup_lt_is_Some. lia.
Qed.

(** C5, as amended.  A step from a well-formed state whose rule exists
    returns, and it writes exactly one tape cell, the one under the pre-step
    head, which receives the rule's write symbol; every other cell and the
    tape length are unchanged; the tape as a whole is unchanged exactly
    when the symbol written equals the symbol read; the step count grows
    by 1; and the event carries the symbol that was under the head before
    the write. *)
Theorem step_atomicity (program : gmap (Z * Z) Rule) (N : Z) (state : MachineState)
    (read_sym : Z) (rule : Rule) :
  wf_state N state →
  tape state !! Z.to_nat (i state) = Some read_sym →
  program !! (pc state, read_sym) = Some rule →
  ∃ state' ev, machine_step program N state = Ok (state', ev)
    ∧ tape state' !! Z.to_nat (i state) = Some (write rule)
    ∧ (∀ k, k ≠ Z.to_nat (i state) → tape state' !! k = tape state !! k)
    ∧ length (tape state') = length (tape state)
    ∧ (tape state' = tape state ↔ write rule = read_sym)
    ∧ cycle state' = cycle state + 1
    ∧ symbol_read ev = read_sym
    ∧ symbol_written ev = write rule
    ∧ col ev = i state.
Proof.
  intros Hwf Hread Hrule.
  rewrite (machine_step_ok _ _ _ _ _ Hwf Hread Hrule).
  destruct Hwf as [Hlen Hi].
  assert (Z.to_nat (i state) < length (tape state))%nat as Hlt by lia.
  do 2 eexists. split; [reflexivity|]. cbn.
  repeat split; try done.
  - by apply list_lookup_insert_eq.
  - intros k Hk. by apply list_lookup_insert_ne.
  - apply length_insert.
  - intros Heq. rewrite <- Heq, list_lookup_insert_eq in Hread by done. congruence.
  - intros ->. by apply list_insert_id.
Qed.

Lemma step_atomicity_witness :
  ∃ state' ev,
    machine_step {[ (1, 0) := {| write := 1; move := -1; next_pc := 2 |} ]} 4
                 {| tape := [0; 1; 0; 0]; i := 0; pc := 1; cycle := 0 |} = Ok (state', ev)
    ∧ tape state' !! Z.to_nat 0 = Some 1
    ∧ (∀ k, k ≠ Z.to_nat 0 → tape state' !! k = ([0; 1; 0; 0] : list Z) !! k)
    ∧ length (tape state') = length ([0; 1; 0; 0] : list Z)
    ∧ (tape state' = [0; 1; 0; 0] ↔ 1 = 0)
    ∧ cycle state' = 0 + 1
    ∧ symbol_read ev = 0
    ∧ symbol_written ev = 1
    ∧ col ev = 0.
Proof.
  apply (step_atomicity {[ (1, 0) := {| write := 1; move := -1; next_pc := 2 |} ]} 4
           {| tape := [0; 1; 0; 0]; i := 0; pc := 1; cycle := 0 |} 0
           {| write := 1; move := -1; next_pc := 2 |}).
  - split; cbn; lia.
  - reflexivity.
  - reflexivity.
Defined.

(** C5 as stated fails when a rule writes back the symbol it read: under
    the copier table the first step after a reset of an 8-cell tape reads 0
    at the head and writes 0, and no cell of the tape has changed. *)
Lemma step_may_change_no_cell :
  (program ← load_program copier_fs "program.csv";
   state ← reset_machine blank_state 8;
   r ← machine_step program 8 state;
   Ok (tape state, tape r.1, cycle r.1, symbol_read r.2, symbol_written r.2))
  = Ok ([0; 0; 1; 0; 0; 0; 0; 0], [0; 0; 1; 0; 0; 0; 0; 0], 1, 0, 0).
Proof. vm_compute. reflexivity. Qed.

(** ** What load-time validation guarantees *)

Lemma load_row_Ok program pcs row acc' :
  load_row (program, pcs) row = Ok acc' →
  ∃ pc read rule,
    int_field row "pc" = Ok pc ∧ int_field row "read" = Ok read
    ∧ acc' = (<[(pc, read) := rule]> program, {[pc]} ∪ pcs).
Proof.
  unfold load_row.
  destruct (int_field row "pc") as [|pc]; [done|]. cbn.
  destruct (int_field row "read") as [|read]; [done|]. cbn.
  destruct (int_field row "write") as [|write]; [done|]. cbn.
  destruct (move_field row) as [|mv]; [done|]. cbn.
  destruct (int_field row "next_pc") as [|next_pc]; [done|]. cbn.
  destruct (move_of mv) as [move|]; [|done].
  destruct (negb _); [done|].
  intros [= <-]. eauto 10.
Qed.

Lemma declared_insert program pc read rule pc' :
  declared (<[(pc, read) := rule]> program) pc' ↔ pc' = pc ∨ declared program pc'.
Proof.
  unfold declared, key_states.
  rewrite dom_insert_L, set_map_union_L, set_map_singleton_L.
  rewrite elem_of_union, elem_of_singleton. done.
Qed.

Lemma declared_lookup program pc :
  declared program pc ↔ ∃ read, is_Some (program !! (pc, read)).
Proof.
  unfold declared, key_states. rewrite elem_of_map. split.
  - intros ([pc' read] & -> & Hk). exists read. by apply elem_of_dom.
  - intros (read & Hk). exists (pc, read). split; [done|]. by apply elem_of_dom.
Qed.

(** The set [pcs] follows the keys of [program] through the rows. *)
Lemma load_rows_pcs rows : ∀ program pcs program' pcs',
  load_rows (program, pcs) rows = Ok (program', pcs') →
  (∀ pc, declared program pc → pc ∈ pcs) →
  ∀ pc, declared program' pc → pc ∈ pcs'.
Proof.
  induction rows as [|row rows IH]; intros program pcs program' pcs' Hload Hinv.
  - by injection Hload as <- <-.
  - cbn [load_rows] in Hload.
    destruct (load_row (program, pcs) row) as [|acc1] eqn:Hrow; [done|].
    apply load_row_Ok in Hrow as (pc1 & read1 & rule1 & _ & _ & ->).
    cbn in Hload. eapply IH; [exact Hload|].
    intros pc [->|Hd]%declared_insert; set_solver.
Qed.

Lemma total_on_true program pcs pc :
  total_on program pcs = true → pc ∈ pcs →
  is_Some (program !! (pc, 0)) ∧ is_Some (program !! (pc, 1)).
Proof.
  unfold total_on. rewrite forallb_forall. intros Hall Hpc.
  specialize (Hall pc). rewrite <- list_elem_of_In, elem_of_elements in Hall.
  specialize (Hall Hpc). cbn in Hall.
  rewrite !andb_true_iff, !bool_decide_eq_true in Hall. tauto.
Qed.

(** What a load that returns has gone through. *)
Lemma load_program_Ok fs csv_path program :
  load_program fs csv_path = Ok program →
  ∃ src pcs,
    fs !! csv_path = Some src
    ∧ raised src = None
    ∧ required ⊆ (dict_reader (yielded src)).1
    ∧ load_rows (∅, ∅) (dict_reader (yielded src)).2 = Ok (program, pcs)
    ∧ total_on program pcs = true.
Proof.
  unfold load_program.
  destruct (fs !! csv_path) as [src|]; [|done].
  assert (∀ r0 rows,
            (let '(fieldnames, rdr) := dict_reader rows in
             if negb (bool_decide (required ⊆ fieldnames)) then Raise ValueError
             else '(program, pcs) ← load_rows (∅, ∅) rdr;
                  match r0 with
                  | Some r => Raise (ReadError r)
                  | None => if total_on program pcs then Ok program else Raise ValueError
                  end) = Ok program →
            ∃ pcs, r0 = None ∧ required ⊆ (dict_reader rows).1
                   ∧ load_rows (∅, ∅) (dict_reader rows).2 = Ok (program, pcs)
                   ∧ total_on program pcs = true) as Hbody.
  { intros r0 rows. destruct (dict_reader rows) as [fieldnames rdr]. cbn [fst snd].
    case_bool_decide as Hreq; [|done]. cbn [negb].
    destruct (load_rows (∅, ∅) rdr) as [|[program' pcs]]; [done|]. cbn.
    destruct r0; [done|].
    destruct (total_on program' pcs) eqn:Htotal; [|done].
    intros [= ->]. eauto. }
  intros Hload. exists src.
  destruct (yielded src) as [|fieldnames rest] eqn:Hy.
  - destruct (raised src) eqn:Hr; [done|].
    apply (Hbody None []) in Hload as (pcs & ? & ? & ? & ?). eauto 10.
  - apply (Hbody (raised src)) in Hload as (pcs & ? & ? & ? & ?). eauto 10.
Qed.

(** What the check of lines 70-73 buys: a declared state has its rule for
    0 and its rule for 1. *)
Lemma load_program_total fs csv_path program pc :
  load_program fs csv_path = Ok program →
  declared program pc →
  is_Some (program !! (pc, 0)) ∧ is_Some (program !! (pc, 1)).
Proof.
  intros Hload. apply load_program_Ok in Hload as (src & pcs & _ & _ & _ & Hrows & Htotal).
  intros Hd. eapply total_on_true; [exact Htotal|].
  eapply load_rows_pcs; [exact Hrows| |exact Hd].
  intros pc' Hpc'. apply declared_lookup in Hpc' as (read & Hsome).
  rewrite lookup_empty in Hsome. by destruct Hsome.
Qed.

Lemma reset_run_invariant program N state0 state :
  closed_table program → 1 <= N →
  reset_machine state0 N = Ok state → run_invariant program N state.
Proof.
  intros [Hone _] HN Hreset.
  rewrite reset_machine_ok in Hreset by done. injection Hreset as <-.
  split; [|split]; cbn.
  - split; cbn; [|lia]. rewrite length_insert, length_replicate. lia.
  - done.
  - apply Forall_insert; [|by right].
    apply Forall_replicate. by left.
Qed.

Lemma step_run_invariant fs csv_path program N state :
  load_program fs csv_path = Ok program →
  closed_table program →
  run_invariant program N state →
  ∃ read_sym rule state' ev,
    fetch program state = Ok (i state, read_sym, rule)
    ∧ machine_step program N state = Ok (state', ev)
    ∧ run_invariant program N state'.
Proof.
  intros Hload [_ Hclosed] (Hwf & Hpc & Hcells).
  destruct (wf_state_read N state Hwf) as [read_sym Hread].
  assert (read_sym = 0 ∨ read_sym = 1) as Hsym.
  { eapply (proj1 (Forall_lookup _ _) Hcells). exact Hread. }
  destruct (load_program_total _ _ _ _ Hload Hpc) as [[r0 H0] [r1 H1]].
  assert (∃ rule, program !! (pc state, read_sym) = Some rule) as [rule Hrule].
  { destruct Hsym as [->| ->]; eauto. }
  destruct (Hclosed _ _ Hrule) as [Hnext Hwrite].
  exists read_sym, rule. do 2 eexists.
  split; [|split].
  - unfold fetch, Py.dict_getitem. destruct Hwf as [Hlen Hi].
    rewrite (list_getitem_in _ _ read_sym) by (done || lia). cbn.
    by rewrite Hrule.
  - by apply machine_step_ok.
  - destruct Hwf as [Hlen Hi]. repeat split; cbn.
    + by rewrite length_insert.
    + apply Z.mod_pos_bound. lia.
    + apply Z.mod_pos_bound. lia.
    + done.
    + apply Forall_insert; done.
Qed.

Lemma reachable_run_invariant fs csv_path program N state :
  load_program fs csv_path = Ok program →
  closed_table program → 1 <= N →
  reachable program N state → run_invariant program N state.
Proof.
  intros Hload Hclosed HN Hreach.
  induction Hreach as [state0 state Hreset|state state' ev _ IH Hstep].
  - by eapply reset_run_invariant.
  - destruct (step_run_invariant _ _ _ _ _ Hload Hclosed IH)
      as (read_sym & rule & state1 & ev1 & _ & Hstep1 & Hinv).
    rewrite Hstep in Hstep1. by injection Hstep1 as <- <-.
Qed.

(** C4, as amended.  For a table that passed [load_program] and is closed
    (state 1 is declared, every rule's next state is declared and every
    rule writes 0 or 1), for [N >= 1] and every machine state reachable
    from a reset, the rule lookup of the step succeeds and the step
    itself returns. *)
Theorem lookup_total_on_closed_table fs csv_path program N state :
  load_program fs csv_path = Ok program →
  closed_table program →
  1 <= N →
  reachable program N state →
  ∃ read_sym rule state' ev,
    fetch program state = Ok (i state, read_sym, rule)
    ∧ machine_step program N state = Ok (state', ev).
Proof.
  intros Hload Hclosed HN Hreach.
  destruct (step_run_invariant fs csv_path program N state Hload Hclosed)
    as (read_sym & rule & state' & ev & Hfetch & Hstep & _).
  - by eapply reachable_run_invariant.
  - eauto 10.
Qed.

Lemma load_oscillator : load_program oscillator_fs "program.csv" = Ok oscillator.
Proof. vm_compute. reflexivity. Qed.

Lemma lookup_total_on_closed_table_witness :
  ∃ read_sym rule state' ev,
    fetch oscillator {| tape := [0; 0; 1; 0; 0; 0; 0; 0]; i := 0; pc := 1; cycle := 0 |}
    = Ok (0, read_sym, rule)
    ∧ machine_step oscillator 8
        {| tape := [0; 0; 1; 0; 0; 0; 0; 0]; i := 0; pc := 1; cycle := 0 |}
      = Ok (state', ev).
Proof.
  apply (lookup_total_on_closed_table oscillator_fs "program.csv" oscillator 8
           {| tape := [0; 0; 1; 0; 0; 0; 0; 0]; i := 0; pc := 1; cycle := 0 |}).
  - exact load_oscillator.
  - apply (bool_decide_unpack (closed_table oscillator)). vm_compute. exact I.
  - lia.
  - apply (reach_reset oscillator 8 blank_state). reflexivity.
Defined.

(** A run under a closed, validated table never raises. *)
Lemma run_never_raises fs csv_path program N state0 (n : nat) :
  load_program fs csv_path = Ok program →
  closed_table program → 1 <= N →
  ∃ state, (state1 ← reset_machine state0 N; machine_steps program N n state1) = Ok state.
Proof.
  intros Hload Hclosed HN.
  assert (∃ state1, reset_machine state0 N = Ok state1) as [state1 Hreset]
    by (rewrite reset_machine_ok by done; eauto).
  rewrite Hreset. cbn.
  assert (run_invariant program N state1) as Hinv by (by eapply reset_run_invariant).
  clear Hreset. revert state1 Hinv.
  induction n as [|n IH]; intros state1 Hinv; [by eexists|].
  destruct (step_run_invariant _ _ _ _ _ Hload Hclosed Hinv)
    as (read_sym & rule & state2 & ev & _ & Hstep & Hinv2).
  cbn [machine_steps]. rewrite Hstep. cbn. by apply IH.
Qed.

(** C4 as stated fails: the dangling source passes [load_program], the
    first step from a reset of a 4-cell tape returns and leaves the machine
    in state 2 with the head on a 1, and there the lookup raises
    [KeyError]. *)
Lemma validated_table_can_fail_lookup :
  is_Ok (load_program dangling_fs "program.csv") = true
  ∧ (program ← load_program dangling_fs "program.csv";
     state ← reset_machine blank_state 4;
     state1 ← machine_steps program 4 1 state;
     Ok (pc state1, i state1, tape state1))
    = Ok (2, 1, [1; 1; 0; 0])
  ∧ (program ← load_program dangling_fs "program.csv";
     state ← reset_machine blank_state 4;
     state1 ← machine_steps program 4 1 state;
     fetch program state1)
    = Raise KeyError.
Proof. repeat split; vm_compute; reflexivity. Qed.

(** ** The playback driver *)

Lemma dispatch_steady {Sound} (pb : Playback) (busy : bool) (snd : Sound) :
  started_audio pb = true →
  dispatch pb busy snd = (pb, if busy then chan_queue snd else chan_play snd).
Proof. intros Hs. unfold dispatch. by rewrite Hs. Qed.

(** C9.  Once the driver is in its steady state, every sealed packet is
    queued when the device is busy and played at once when it is not, and
    the driver's state does not change: it stays steady (it never primes
    again), so the packets after an underrun are handled by the same rule. *)
Theorem steady_state_dispatch {Sound} (pb : Playback) (packets : list (bool * Sound)) :
  started_audio pb = true →
  dispatch_all pb packets
  = (pb, (fun p : bool * Sound => if p.1 then chan_queue p.2 else chan_play p.2)
           <$> packets).
Proof.
  intros Hs. induction packets as [|[busy snd] packets IH]; [done|].
  cbn [dispatch_all]. rewrite dispatch_steady by done. rewrite IH. done.
Qed.

Lemma steady_state_dispatch_witness :
  dispatch_all {| started_audio := true; prime_count := 3 |}
               [(true, 10); (false, 11); (true, 12); (true, 13)]
  = ({| started_audio := true; prime_count := 3 |},
     (fun p : bool * Z => if p.1 then chan_queue p.2 else chan_play p.2)
       <$> [(true, 10); (false, 11); (true, 12); (true, 13)]).
Proof.
  apply (steady_state_dispatch {| started_audio := true; prime_count := 3 |}
           [(true, 10); (false, 11); (true, 12); (true, 13)]).
  reflexivity.
Defined.

(** Priming: the first packet is played, the next two are queued whatever
    the device says, and the third one makes the driver steady. *)
Lemma priming_takes_three {Sound} (b1 b2 b3 : bool) (s1 s2 s3 : Sound) :
  dispatch_all initial_playback [(b1, s1); (b2, s2); (b3, s3)]
  = ({| started_audio := true; prime_count := 3 |},
     [chan_play s1; chan_queue s2; chan_queue s3]).
Proof. reflexivity. Qed.

(** ** The delay knob *)

(** C10.  [set_delay v] clamps [v] to [0, MAX_DELAY].  When the clamped
    value is the current [delay_samples], nothing changes: same length,
    same deque object, same contents.  Otherwise [delay_samples] becomes
    the clamped value and [delay_line] is bound to a new, zero-filled deque
    of [max(1, clamped)] items.  So the line is replaced exactly when the
    clamped value differs. *)
Theorem set_delay_frame (MAX_DELAY : Z) (d : Delay) (v : Z) :
  let clamped := Z.max 0 (Z.min MAX_DELAY v) in
  (clamped = delay_samples d → set_delay MAX_DELAY d v = d)
  ∧ (clamped ≠ delay_samples d →
       set_delay MAX_DELAY d v
       = {| delay_samples := clamped;
            delay_line := Py.Deque (replicate (Z.to_nat (Z.max 1 clamped)) 0)
                                   (Z.max 1 clamped);
            line_obj := S (line_obj d) |})
  ∧ (line_obj (set_delay MAX_DELAY d v) = line_obj d ↔ clamped = delay_samples d).
Proof.
  intros clamped. unfold set_delay, MIN_DELAY. fold clamped.
  destruct (Z.eqb_spec clamped (delay_samples d)) as [Heq|Hne].
  - repeat split; try done.
  - assert (0 <= clamped) as Hc by (subst clamped; lia).
    destruct (Z.leb_spec clamped 0) as [Hle|Hgt].
    + assert (clamped = 0) as -> by lia.
      repeat split; try done; cbn; lia.
    + rewrite deque_of_zeros by lia.
      replace (Z.max 1 clamped) with clamped by lia.
      repeat split; try done; cbn; lia.
Qed.

(** The knob at 5 with a sample in the line: asking for 5 again keeps the
    buffered history; asking for 6 starts a new line of six zeros. *)
Lemma set_delay_frame_witness :
  let d := {| delay_samples := 5; delay_line := Py.Deque [0; 0; 0; 12000] 5;
              line_obj := 1 |} in
  set_delay 22000 d 5 = d
  ∧ set_delay 22000 d 6
    = {| delay_samples := 6; delay_line := Py.Deque [0; 0; 0; 0; 0; 0] 6;
         line_obj := 2 |}.
Proof.
  intros d. split.
  - apply (proj1 (set_delay_frame 22000 d 5)). reflexivity.
  - apply (proj1 (proj2 (set_delay_frame 22000 d 6))). cbn. lia.
Defined.

(** ** When load_program fails *)



(** The table and the state set that the rows build. *)
Lemma load_rows_keys rows : ∀ program pcs program' pcs',
  load_rows (program, pcs) rows = Ok (program', pcs') →
  (∀ pc read, is_Some (program' !! (pc, read))
              ↔ is_Some (program !! (pc, read)) ∨ has_rule rows pc read = true)
  ∧ (∀ pc, pc ∈ pcs' ↔ pc ∈ pcs ∨ has_state rows pc = true).
Proof.
  induction rows as [|row rows IH]; intros program pcs program' pcs' Hload.
  - injection Hload as <- <-. cbn. split; intros; split; intuition discriminate.
  - cbn [load_rows] in Hload.
    destruct (load_row (program, pcs) row) as [|acc1] eqn:Hrow; [done|].
    apply load_row_Ok in Hrow as (pc1 & read1 & rule1 & Hpc1 & Hread1 & ->).
    cbn in Hload. apply IH in Hload as [Hkeys Hstates].
    unfold has_rule, has_state. cbn [existsb]. rewrite Hpc1, Hread1.
    split.
    + intros pc read. rewrite Hkeys. fold (has_rule rows pc read).
      rewrite orb_true_iff, andb_true_iff, !Z.eqb_eq.
      destruct (decide ((pc1, read1) = (pc, read))) as [[= -> ->]|Hne].
      * rewrite lookup_insert_eq. split; [intros _|]; eauto.
      * rewrite lookup_insert_ne by done.
        split; [tauto|]. intros [?|[[-> ->]|?]]; tauto.
    + intros pc. rewrite Hstates. fold (has_state rows pc).
      rewrite orb_true_iff, Z.eqb_eq, elem_of_union, elem_of_singleton.
      split; [intros [[->|?]|?]|intros [?|[->|?]]]; tauto.
Qed.





(** *** The parser against the shape of a literal *)









Section stripping.

Variables (space blank : ascii → bool).
Hypothesis space_blank : ∀ c, space c = blank c.





End stripping.








(** *** The loader's tests against the stated conditions *)














Example state_three_must_fail :
  load_program partial_fs "program.csv" = Raise ValueError
  ∧ Stated.incomplete (dict_reader [ header;
                                     ["1"; "0"; "1"; "R"; "3"];
                                     ["1"; "1"; "1"; "R"; "3"];
                                     ["3"; "0"; "0"; "L"; "1"] ]).2 = true.
Proof. split; vm_compute; reflexivity. Qed.

(** [int] takes 4300 digits and refuses 4301, though they are written as a
    literal is; a source with such a cell does not load. *)
Example digit_limit :
  is_Some (Py.int_of_str (long_literal 4300))
  ∧ Py.int_of_str (long_literal 4301) = None
  ∧ Stated.integer_literal (long_literal 4301) = false
  ∧ load_program overlong_fs "program.csv" = Raise ValueError.
Proof.
  split; [|repeat split; vm_compute; reflexivity].
  vm_compute. eexists. reflexivity.
Qed.


(** ** The step loop runs the tape machine *)

(** The machine state a turn of the step loop leaves is the state a step
    of the tape machine leaves: the audio lines in between touch neither
    the tape nor the head. *)
Lemma loop_body_steps_machine program N audio_hz busy s s' :
  loop_body program N audio_hz busy s = Ok s' →
  ∃ ev, machine_step program N (state s) = Ok (state s', ev).
Proof.
  unfold loop_body, machine_step.
  destruct (fetch program (state s)) as [|[[tc read_sym] rule]]; [done|]. cbn.
  destruct (synth (delay s) read_sym (write rule)) as [|[[L R] delay1]]; [done|]. cbn.
  destruct (pack_hh L R) as [|packed]; [done|]. cbn.
  destruct (commit N (state s) tc read_sym rule) as [|[state1 ev]]; [done|]. cbn.
  destruct (_ <=? _).
  - destruct (dispatch _ _ _) as [playback1 call]. intros [= <-]. by exists ev.
  - intros [= <-]. by exists ev.
Qed.

(** The synthesizer's samples always fit 16 bits, so packing them never
    raises. *)
Lemma bit_to_i16_packs (b1 b2 : bool) :
  ∃ bytes, pack_hh (bit_to_i16 b1) (bit_to_i16 b2) = Ok bytes ∧ length bytes = 4%nat.
Proof. destruct b1, b2; eexists; split; reflexivity. Qed.

Lemma delay_is_one_short_witness :
  fst <$> push_pops (Py.deque_of (Py.list_repeat 0 3) 3) [12000; 0; 12000; 12000]
  = Ok (take (length [12000; 0; 12000; 12000])
             (replicate (Z.to_nat (3 - 1)) 0 ++ [12000; 0; 12000; 12000])).
Proof. apply (delay_is_one_short 3 [12000; 0; 12000; 12000]). lia. Defined.

Lemma run_never_raises_witness :
  ∃ state, (state1 ← reset_machine blank_state 8; machine_steps oscillator 8 16 state1)
           = Ok state.
Proof.
  apply (run_never_raises oscillator_fs "program.csv" oscillator 8 blank_state 16).
  - exact load_oscillator.
  - apply (bool_decide_unpack (closed_table oscillator)). vm_compute. exact I.
  - lia.
Defined.

(** ** A session on the oscillator

    At 22000 Hz and 60 frames per second the first frame runs 366 steps
    and leaves 40 in the accumulator; a packet is 1320 sample pairs long,
    so the first one is sealed and played in the fourth frame, and the
    knob turned up by one in the second frame stays at 1. *)
Example oscillator_session :
  (r ← start oscillator_fs 8 60 22000 "program.csv";
   s ← frames r.1 8 60 22000
         [([], fun _ => false); ([K_RIGHTBRACKET], fun _ => false);
          ([], fun _ => false); ([], fun _ => false)] r.2;
   Ok (cycle (state s), step_acc s, delay_samples (delay s),
       length (chunk s), length (chan s), prime_count (playback s)))
  = Ok (1466, 40, 1, 584%nat, 1%nat, 1).
Proof. vm_compute. reflexivity. Qed.

(** * Further properties of the code *)

(** ** The scheduler over any number of frames *)

(** X2.  Over any number of frames, from any accumulator in [0, fps), the steps
    handed out stay within one step of the exact share: [fps] times their
    sum differs from [n * audio_hz] by less than [fps]; each frame gets the
    quotient or one more; and the accumulator stays in [0, fps). *)
Theorem schedule_drift_bounded (audio_hz fps acc : Z) (n : nat) :
  0 < fps → 0 <= acc < fps →
  let r := schedule_frames audio_hz fps n acc in
  - fps < fps * sum_list r.1 - Z.of_nat n * audio_hz < fps
  ∧ Forall (fun s => s = audio_hz / fps ∨ s = audio_hz / fps + 1) r.1
  ∧ 0 <= r.2 < fps.
Proof.
  intros Hf Hacc.
  pose proof (schedule_frames_spec audio_hz fps Hf n acc Hacc) as H.
  destruct (schedule_frames audio_hz fps n acc) as [l acc']. simpl in *.
  destruct H as (_ & Hall & Hacc' & Hsum).
  pose proof (Z.div_mod audio_hz fps ltac:(lia)) as Hdm.
  unfold base_steps, rem_steps in *.
  repeat split; try done; nia.
Qed.

Lemma schedule_drift_bounded_witness :
  let r := schedule_frames 22000 60 7 59 in
  - 60 < 60 * sum_list r.1 - Z.of_nat 7 * 22000 < 60
  ∧ Forall (fun s => s = 22000 / 60 ∨ s = 22000 / 60 + 1) r.1
  ∧ 0 <= r.2 < 60.
Proof. apply (schedule_drift_bounded 22000 60 59 7); lia. Defined.

(** ** reset_machine and the tape machine at their edges *)

Lemma reset_machine_nonpos (state : MachineState) (N : Z) :
  N <= 0 → reset_machine state N = Raise IndexError.
Proof.
  intros HN. unfold reset_machine, Py.list_setitem, Py.list_repeat, Py.norm_index.
  rewrite length_replicate.
  replace (Z.of_nat (Z.to_nat N)) with 0 by lia.
  destruct (Z.ltb_spec (N / 4) 0) as [Hneg|Hpos].
  - rewrite Z.add_0_r. destruct (Z.leb_spec 0 (N / 4)); [lia|]. done.
  - destruct (Z.ltb_spec (N / 4) 0); [lia|].
    rewrite andb_false_r. done.
Qed.

(** X3.  [reset_machine] returns exactly when the tape has a cell to seed: for
    [N >= 1] it returns the seeded tape, for [N <= 0] it raises
    [IndexError] (the seed index falls outside the empty tape). *)
Theorem reset_machine_empty_tape (state : MachineState) (N : Z) :
  reset_machine state N
  = if 1 <=? N
    then Ok {| tape := <[Z.to_nat (N / 4) := 1]> (replicate (Z.to_nat N) 0);
               i := 0; pc := 1; cycle := 0 |}
    else Raise IndexError.
Proof.
  destruct (Z.leb_spec 1 N).
  - by apply reset_machine_ok.
  - apply reset_machine_nonpos. lia.
Qed.

(** X4.  From a well-formed state a step has one way to fail: it raises
    [KeyError] exactly when the table has no rule for the control state and
    the symbol under the head.  Otherwise it returns a well-formed state,
    and the pixel it reports lies on the [N] by [N] canvas. *)
Theorem machine_step_outcomes (program : gmap (Z * Z) Rule) (N : Z)
    (state : MachineState) (read_sym : Z) :
  wf_state N state →
  tape state !! Z.to_nat (i state) = Some read_sym →
  match program !! (pc state, read_sym) with
  | None => machine_step program N state = Raise KeyError
  | Some rule =>
      ∃ state' ev, machine_step program N state = Ok (state', ev)
        ∧ wf_state N state'
        ∧ pc state' = next_pc rule
        ∧ 0 <= row ev < N ∧ 0 <= col ev < N
  end.
Proof.
  intros Hwf Hread.
  destruct (program !! (pc state, read_sym)) as [rule|] eqn:Hrule.
  - rewrite (machine_step_ok _ _ _ _ _ Hwf Hread Hrule).
    destruct Hwf as [Hlen Hi].
    do 2 eexists. split; [reflexivity|]. cbn.
    split; [split; cbn|].
    + by rewrite length_insert.
    + apply Z.mod_pos_bound. lia.
    + split; [done|]. split; [apply Z.mod_pos_bound|]; lia.
  - by apply (machine_step_no_rule _ _ _ read_sym).
Qed.

Lemma machine_step_outcomes_witness :
  match oscillator !! (2, 1) with
  | None => machine_step oscillator 4
              {| tape := [0; 1; 0; 0]; i := 1; pc := 2; cycle := 5 |} = Raise KeyError
  | Some rule =>
      ∃ state' ev,
        machine_step oscillator 4
          {| tape := [0; 1; 0; 0]; i := 1; pc := 2; cycle := 5 |} = Ok (state', ev)
        ∧ wf_state 4 state'
        ∧ pc state' = next_pc rule
        ∧ 0 <= row ev < 4 ∧ 0 <= col ev < 4
  end.
Proof.
  apply (machine_step_outcomes oscillator 4
           {| tape := [0; 1; 0; 0]; i := 1; pc := 2; cycle := 5 |} 1).
  - split; cbn; lia.
  - reflexivity.
Defined.

(** A step that returns keeps the state well-formed and counts itself. *)
Lemma machine_step_wf program N state state' ev :
  wf_state N state →
  machine_step program N state = Ok (state', ev) →
  wf_state N state'
  ∧ cycle state' = cycle state + 1
  ∧ length (tape state') = length (tape state).
Proof.
  intros Hwf Hstep.
  destruct (wf_state_read N state Hwf) as [read_sym Hread].
  destruct (program !! (pc state, read_sym)) as [rule|] eqn:Hrule.
  - rewrite (machine_step_ok _ _ _ _ _ Hwf Hread Hrule) in Hstep.
    injection Hstep as <- <-. destruct Hwf as [Hlen Hi].
    split; [split|]; cbn.
    + by rewrite length_insert.
    + apply Z.mod_pos_bound. lia.
    + split; [done|]. apply length_insert.
  - by rewrite (machine_step_no_rule _ _ _ read_sym Hwf Hread Hrule) in Hstep.
Qed.

(** X5.  Whatever the rule table, every state a run reaches from a reset of an
    [N >= 1] tape is well-formed: the tape has [N] cells, the head is on
    one of them and the step count is not negative. *)
Theorem reachable_well_formed (program : gmap (Z * Z) Rule) (N : Z)
    (state : MachineState) :
  1 <= N → reachable program N state →
  wf_state N state ∧ 0 <= cycle state.
Proof.
  intros HN Hreach.
  induction Hreach as [state0 state Hreset|state state' ev _ IH Hstep].
  - rewrite reset_machine_ok in Hreset by done. injection Hreset as <-.
    split; [split|]; cbn; try lia.
    rewrite length_insert, length_replicate. lia.
  - destruct IH as [Hwf Hcycle].
    destruct (machine_step_wf _ _ _ _ _ Hwf Hstep) as (Hwf' & Hc & _).
    split; [done|lia].
Qed.

Lemma reachable_well_formed_witness :
  wf_state 8 {| tape := [0; 0; 1; 0; 0; 0; 0; 0]; i := 0; pc := 1; cycle := 0 |}
  ∧ 0 <= cycle {| tape := [0; 0; 1; 0; 0; 0; 0; 0]; i := 0; pc := 1; cycle := 0 |}.
Proof.
  apply (reachable_well_formed oscillator 8).
  - lia.
  - apply (reach_reset oscillator 8 blank_state). reflexivity.
Defined.

(** X6.  [n] steps that all return add [n] to the step count and leave the tape
    its length. *)
Theorem machine_steps_count (program : gmap (Z * Z) Rule) (N : Z) (n : nat)
    (state state' : MachineState) :
  wf_state N state →
  machine_steps program N n state = Ok state' →
  cycle state' = cycle state + Z.of_nat n
  ∧ wf_state N state'.
Proof.
  revert state. induction n as [|n IH]; intros state Hwf Hrun.
  - injection Hrun as <-. split; [lia|done].
  - cbn [machine_steps] in Hrun.
    destruct (machine_step program N state) as [|[state1 ev]] eqn:Hstep; [done|].
    cbn in Hrun.
    destruct (machine_step_wf _ _ _ _ _ Hwf Hstep) as (Hwf1 & Hc & _).
    destruct (IH state1 Hwf1 Hrun) as [Hc' Hwf'].
    split; [lia|done].
Qed.

Lemma machine_steps_count_witness :
  cycle {| tape := [1; 0; 1; 0]; i := 3; pc := 2; cycle := 3 |} = 0 + Z.of_nat 3
  ∧ wf_state 4 {| tape := [1; 0; 1; 0]; i := 3; pc := 2; cycle := 3 |}.
Proof.
  apply (machine_steps_count oscillator 4 3
           {| tape := [0; 1; 0; 0]; i := 0; pc := 1; cycle := 0 |}).
  - split; cbn; lia.
  - vm_compute. reflexivity.
Defined.

(** ** What load_program returns and how it fails *)

Lemma load_row_rule program pcs row program' pcs' :
  load_row (program, pcs) row = Ok (program', pcs') →
  ∃ pc read rule,
    program' = <[(pc, read) := rule]> program
    ∧ move rule ∈ [-1; 0; 1] ∧ write rule ∈ [0; 1; 2].
Proof.
  unfold load_row.
  destruct (int_field row "pc") as [|pc]; [done|]. cbn.
  destruct (int_field row "read") as [|read]; [done|]. cbn.
  destruct (int_field row "write") as [|write]; [done|]. cbn.
  destruct (move_field row) as [|mv]; [done|]. cbn.
  destruct (int_field row "next_pc") as [|next_pc]; [done|]. cbn.
  destruct (move_of mv) as [move|] eqn:Hmove; [|done].
  case_bool_decide as Hwrite; [|done]. cbn.
  intros [= <- _]. do 3 eexists. split; [reflexivity|]. cbn. split; [|done].
  unfold move_of in Hmove. clear Hwrite.
  destruct (bool_decide (mv = "L")); [injection Hmove as <-; set_solver|].
  destruct (bool_decide (mv = "R")); [injection Hmove as <-; set_solver|].
  destruct (bool_decide (mv = "S")); [injection Hmove as <-; set_solver|done].
Qed.

Lemma load_rows_rules rows : ∀ program pcs program' pcs',
  load_rows (program, pcs) rows = Ok (program', pcs') →
  map_Forall (fun _ rule => move rule ∈ [-1; 0; 1] ∧ write rule ∈ [0; 1; 2]) program →
  map_Forall (fun _ rule => move rule ∈ [-1; 0; 1] ∧ write rule ∈ [0; 1; 2]) program'.
Proof.
  induction rows as [|row rows IH]; intros program pcs program' pcs' Hload Hall.
  - by injection Hload as <- <-.
  - cbn [load_rows] in Hload.
    destruct (load_row (program, pcs) row) as [|[program1 pcs1]] eqn:Hrow; [done|].
    apply load_row_rule in Hrow as (pc1 & read1 & rule1 & -> & Hm & Hw).
    cbn in Hload. eapply IH; [exact Hload|].
    by apply map_Forall_insert_2.
Qed.

(** X7.  A table that loaded holds exactly the (state, symbol) pairs the rows
    of the source give a rule for; each of its rules moves by -1, 0 or 1
    and writes 0, 1 or 2; and each state it has a rule for has its rule
    for 0 and its rule for 1. *)
Theorem loaded_table_shape (fs : file_system) (csv_path : string)
    (src : csv_source) (program : gmap (Z * Z) Rule) :
  fs !! csv_path = Some src →
  load_program fs csv_path = Ok program →
  (∀ pc read, is_Some (program !! (pc, read))
              ↔ has_rule (dict_reader (yielded src)).2 pc read = true)
  ∧ (∀ pc read rule, program !! (pc, read) = Some rule →
       move rule ∈ [-1; 0; 1] ∧ write rule ∈ [0; 1; 2]
       ∧ is_Some (program !! (pc, 0)) ∧ is_Some (program !! (pc, 1))).
Proof.
  intros Hfile Hload.
  pose proof (load_program_total fs csv_path program) as Htotal.
  specialize (Htotal) with (1 := Hload).
  apply load_program_Ok in Hload as (src' & pcs & Hfile' & _ & _ & Hrows & _).
  rewrite Hfile in Hfile'. injection Hfile' as <-.
  split.
  - intros pc read.
    destruct (load_rows_keys _ _ _ _ _ Hrows) as [Hkeys _].
    rewrite Hkeys, lookup_empty. split; [intros [[? ?]|?]|]; eauto. done.
  - intros pc read rule Hrule.
    pose proof (load_rows_rules _ _ _ _ _ Hrows (map_Forall_empty _)) as Hall.
    destruct (Hall _ _ Hrule) as [Hm Hw].
    destruct (Htotal pc) as [H0 H1].
    { apply declared_lookup. exists read. by rewrite Hrule. }
    done.
Qed.

Lemma loaded_table_shape_witness :
  (∀ pc read, is_Some (oscillator !! (pc, read))
              ↔ has_rule (dict_reader [ header;
                                        ["1"; "0"; "1"; "R"; "2"];
                                        ["1"; "1"; "1"; "R"; "2"];
                                        ["2"; "0"; "0"; "R"; "1"];
                                        ["2"; "1"; "0"; "R"; "1"] ]).2 pc read = true)
  ∧ (∀ pc read rule, oscillator !! (pc, read) = Some rule →
       move rule ∈ [-1; 0; 1] ∧ write rule ∈ [0; 1; 2]
       ∧ is_Some (oscillator !! (pc, 0)) ∧ is_Some (oscillator !! (pc, 1))).
Proof.
  apply (loaded_table_shape oscillator_fs "program.csv"
           (plain [ header;
                    ["1"; "0"; "1"; "R"; "2"];
                    ["1"; "1"; "1"; "R"; "2"];
                    ["2"; "0"; "0"; "R"; "1"];
                    ["2"; "1"; "0"; "R"; "1"] ])).
  - reflexivity.
  - exact load_oscillator.
Defined.

Lemma fill_none_is_Some (keys : list string) : ∀ (d : gmap string (option string)) key,
  key ∈ keys ∨ is_Some (d !! key) →
  is_Some (foldl (fun d key => <[key := None]> d) d keys !! key).
Proof.
  induction keys as [|k keys IH]; intros d key Hkey; cbn [foldl].
  - destruct Hkey as [Hin|Hd]; [by apply elem_of_nil in Hin|done].
  - apply IH. destruct Hkey as [Hin|Hd].
    + apply elem_of_cons in Hin as [->|Hin]; [right|by left].
      by rewrite lookup_insert_eq.
    + right. destruct (decide (k = key)) as [->|Hne].
      * by rewrite lookup_insert_eq.
      * by rewrite lookup_insert_ne.
Qed.

Lemma zip_cells_is_Some (fieldnames : list string) :
  ∀ (row : list string) (d : gmap string (option string)) key,
  key ∈ take (length row) fieldnames ∨ is_Some (d !! key) →
  is_Some (foldl (fun d kv => <[kv.1 := Some kv.2]> d) d (zip fieldnames row) !! key).
Proof.
  induction fieldnames as [|k fieldnames IH]; intros row d key Hkey.
  - cbn. destruct Hkey as [Hin|Hd]; [|done].
    rewrite take_nil in Hin. by apply elem_of_nil in Hin.
  - destruct row as [|cell row].
    + cbn. destruct Hkey as [Hin|Hd]; [by apply elem_of_nil in Hin|done].
    + cbn [zip zip_with foldl]. apply IH. cbn [length take] in Hkey.
      destruct Hkey as [Hin|Hd].
      * apply elem_of_cons in Hin as [->|Hin]; [right|by left].
        cbn. by rewrite lookup_insert_eq.
      * right. cbn. destruct (decide (k = key)) as [->|Hne].
        -- by rewrite lookup_insert_eq.
        -- by rewrite lookup_insert_ne.
Qed.

(** Every field name is a key of every row the reader hands over. *)
Lemma dict_row_keys (fieldnames row : list string) (key : string) :
  key ∈ fieldnames → is_Some (dict_row fieldnames row !! key).
Proof.
  intros Hkey. unfold dict_row. apply fill_none_is_Some.
  rewrite <- (take_drop (length row) fieldnames) in Hkey.
  apply elem_of_app in Hkey as [Hin|Hin]; [right|by left].
  apply zip_cells_is_Some. by left.
Qed.

Lemma int_field_errors row key e :
  is_Some (row !! key) → int_field row key = Raise e → e = TypeError ∨ e = ValueError.
Proof.
  intros [cell Hcell]. unfold int_field, Py.dict_getitem. rewrite Hcell. cbn.
  destruct cell as [s|]; [|intros [= <-]; by left].
  destruct (Py.int_of_str s); [done|]. intros [= <-]. by right.
Qed.

Lemma move_field_errors row e :
  is_Some (row !! "move") → move_field row = Raise e → e = AttributeError.
Proof.
  intros [cell Hcell]. unfold move_field, Py.dict_getitem. rewrite Hcell. cbn.
  destruct cell as [s|]; [done|]. by intros [= <-].
Qed.

Ltac in_required := unfold required; repeat constructor.

Lemma load_row_errors acc row e :
  (∀ key, key ∈ required → is_Some (row !! key)) →
  load_row acc row = Raise e →
  e = ValueError ∨ e = TypeError ∨ e = AttributeError.
Proof.
  intros Hkeys. destruct acc as [program pcs]. unfold load_row.
  assert (∀ key e', key ∈ required → int_field row key = Raise e' →
            e' = ValueError ∨ e' = TypeError ∨ e' = AttributeError) as Hint.
  { intros key e' Hkey Hraise.
    destruct (int_field_errors row key e' (Hkeys key Hkey) Hraise); auto. }
  destruct (int_field row "pc") as [e1|pc] eqn:H1; cbn.
  { intros [= <-]. apply (Hint "pc"); [in_required|done]. }
  destruct (int_field row "read") as [e2|read] eqn:H2; cbn.
  { intros [= <-]. apply (Hint "read"); [in_required|done]. }
  destruct (int_field row "write") as [e3|write] eqn:H3; cbn.
  { intros [= <-]. apply (Hint "write"); [in_required|done]. }
  destruct (move_field row) as [e4|mv] eqn:H4; cbn.
  { intros [= <-]. right. right.
    apply (move_field_errors row); [apply Hkeys; in_required|done]. }
  destruct (int_field row "next_pc") as [e5|next_pc] eqn:H5; cbn.
  { intros [= <-]. apply (Hint "next_pc"); [in_required|done]. }
  destruct (move_of mv); [|intros [= <-]; by left].
  destruct (negb _); [intros [= <-]; by left|done].
Qed.

Lemma load_rows_errors rows : ∀ acc e,
  Forall (fun row => ∀ key, key ∈ required → is_Some (row !! key)) rows →
  load_rows acc rows = Raise e →
  e = ValueError ∨ e = TypeError ∨ e = AttributeError.
Proof.
  induction rows as [|row rows IH]; intros acc e Hall; [done|].
  apply Forall_cons in Hall as [Hrow Hall]. cbn [load_rows].
  destruct (load_row acc row) as [e1|acc1] eqn:Hload; cbn.
  - intros [= <-]. by eapply load_row_errors.
  - by apply IH.
Qed.

(** What a load of a file that exists can raise. *)
Lemma load_program_raises fs csv_path src e :
  fs !! csv_path = Some src →
  load_program fs csv_path = Raise e →
  (∃ r, e = ReadError r ∧ raised src = Some r)
  ∨ e = ValueError ∨ e = TypeError ∨ e = AttributeError.
Proof.
  intros Hfile. unfold load_program. rewrite Hfile.
  assert (∀ r0 rows,
            (let '(fieldnames, rdr) := dict_reader rows in
             if negb (bool_decide (required ⊆ fieldnames)) then Raise ValueError
             else '(program, pcs) ← load_rows (∅, ∅) rdr;
                  match r0 with
                  | Some r => Raise (ReadError r)
                  | None => if total_on program pcs then Ok program else Raise ValueError
                  end) = Raise e →
            (∃ r, e = ReadError r ∧ r0 = Some r)
            ∨ e = ValueError ∨ e = TypeError ∨ e = AttributeError) as Hbody.
  { intros r0 rows. unfold dict_reader.
    destruct rows as [|fieldnames rest].
    { cbn. intros [= <-]. auto. }
    case_bool_decide as Hreq; cbn [negb]; [|intros [= <-]; auto].
    destruct (load_rows (∅, ∅) _) as [e1|[program pcs]] eqn:Hrows; cbn.
    - intros [= <-]. right. eapply load_rows_errors; [|exact Hrows].
      apply Forall_fmap, Forall_forall. intros row _ key Hkey. cbn.
      apply dict_row_keys. by apply Hreq.
    - destruct r0 as [r|]; [intros [= <-]; eauto|].
      destruct (total_on program pcs); [done|]. intros [= <-]. auto. }
  destruct (yielded src) as [|fieldnames rest].
  - destruct (raised src) as [r|]; [intros [= <-]; eauto|]. apply (Hbody None []).
  - apply Hbody.
Qed.

(** X8.  How [load_program] can fail.  It raises [FileNotFoundError] exactly
    when there is no file at the path.  With a file there it either
    returns, and then the file was read to its end, or it raises the error
    that ended the reading, [ValueError], [TypeError] (a short row leaves
    a numeric cell empty) or [AttributeError] (a short row leaves the
    move empty), and nothing else: once the header has every required
    column, no row lookup can raise [KeyError]. *)
Theorem load_program_errors (fs : file_system) (csv_path : string) :
  (load_program fs csv_path = Raise FileNotFoundError ↔ fs !! csv_path = None)
  ∧ (∀ src, fs !! csv_path = Some src →
       match load_program fs csv_path with
       | Ok _ => raised src = None
       | Raise e =>
           (∃ r, e = ReadError r ∧ raised src = Some r)
           ∨ e = ValueError ∨ e = TypeError ∨ e = AttributeError
       end).
Proof.
  split.
  - split.
    + intros Hload. destruct (fs !! csv_path) as [src|] eqn:Hfile; [|done].
      destruct (load_program_raises _ _ _ _ Hfile Hload)
        as [(r & [=] & _)|[[=]|[[=]|[=]]]].
    + intros Hfile. unfold load_program. by rewrite Hfile.
  - intros src Hfile.
    destruct (load_program fs csv_path) as [e|program] eqn:Hload.
    + by eapply load_program_raises.
    + apply load_program_Ok in Hload as (src' & pcs & Hfile' & Hraised & _).
      rewrite Hfile in Hfile'. by injection Hfile' as <-.
Qed.

(** A path with no file, a file that loads, one that stops decoding after
    its header, and one with a state short of a rule. *)
Lemma load_program_errors_witness :
  load_program oscillator_fs "nowhere.csv" = Raise FileNotFoundError
  ∧ match load_program oscillator_fs "program.csv" with
    | Ok _ => raised (plain [header]) = None
    | Raise e =>
        (∃ r, e = ReadError r ∧ raised (plain [header]) = Some r)
        ∨ e = ValueError ∨ e = TypeError ∨ e = AttributeError
    end
  ∧ match load_program {[ "program.csv" := {| yielded := [header];
                                               raised := Some UnicodeDecodeError |} ]}
                       "program.csv" with
    | Ok _ => Some UnicodeDecodeError = None
    | Raise e =>
        (∃ r, e = ReadError r ∧ Some UnicodeDecodeError = Some r)
        ∨ e = ValueError ∨ e = TypeError ∨ e = AttributeError
    end.
Proof.
  split; [|split].
  - apply (proj1 (load_program_errors oscillator_fs "nowhere.csv")). reflexivity.
  - exact (proj2 (load_program_errors oscillator_fs "program.csv")
             (plain [ header;
                      ["1"; "0"; "1"; "R"; "2"];
                      ["1"; "1"; "1"; "R"; "2"];
                      ["2"; "0"; "0"; "R"; "1"];
                      ["2"; "1"; "0"; "R"; "1"] ]) eq_refl).
  - exact (proj2 (load_program_errors
                    {[ "program.csv" := {| yielded := [header];
                                           raised := Some UnicodeDecodeError |} ]}
                    "program.csv")
             {| yielded := [header]; raised := Some UnicodeDecodeError |} eq_refl).
Defined.

Example read_error_after_rows :
  load_program {[ "program.csv" := {| yielded := [header; ["1"; "0"; "1"; "R"; "1"]];
                                      raised := Some CsvError |} ]} "program.csv"
  = Raise (ReadError CsvError)
  ∧ load_program {[ "program.csv" := {| yielded := [header; ["x"; "0"; "1"; "R"; "1"]];
                                        raised := Some CsvError |} ]} "program.csv"
    = Raise ValueError
  ∧ load_program {[ "program.csv" := {| yielded := []; raised := Some IsADirectoryError |} ]}
                 "program.csv"
    = Raise (ReadError IsADirectoryError).
Proof. repeat split; vm_compute; reflexivity. Qed.

(** ** The delay knob and the synthesizer, whatever the keys pressed *)

Lemma set_delay_samples (MAX_DELAY : Z) (d : Delay) (v : Z) :
  delay_samples (set_delay MAX_DELAY d v) = Z.max 0 (Z.min MAX_DELAY v).
Proof.
  unfold set_delay, MIN_DELAY.
  destruct (Z.eqb_spec (Z.max 0 (Z.min MAX_DELAY v)) (delay_samples d)); [done|].
  by destruct (_ <=? _).
Qed.

Lemma initial_delay_inv : delay_inv initial_delay.
Proof.
  assert (initial_delay
          = {| delay_samples := 0; delay_line := Py.Deque [0] 1; line_obj := O |})
    as -> by reflexivity.
  unfold delay_inv. cbn. split; [lia|]. split; [lia|]. split; [lia|].
  apply Forall_cons. split; [by left|constructor].
Qed.

Lemma set_delay_changed (MAX_DELAY : Z) (d : Delay) (v : Z) :
  Z.max 0 (Z.min MAX_DELAY v) ≠ delay_samples d →
  set_delay MAX_DELAY d v
  = {| delay_samples := Z.max 0 (Z.min MAX_DELAY v);
       delay_line := Py.Deque (replicate (Z.to_nat (Z.max 1 (Z.max 0 (Z.min MAX_DELAY v)))) 0)
                              (Z.max 1 (Z.max 0 (Z.min MAX_DELAY v)));
       line_obj := S (line_obj d) |}.
Proof.
  intros Hne. unfold set_delay, MIN_DELAY.
  set (c := Z.max 0 (Z.min MAX_DELAY v)) in *.
  assert (0 <= c) as Hc by (subst c; lia).
  destruct (Z.eqb_spec c (delay_samples d)); [done|].
  destruct (Z.leb_spec c 0).
  - by replace c with 0 by lia.
  - rewrite deque_of_zeros by lia. by replace (Z.max 1 c) with c by lia.
Qed.

Lemma set_delay_inv (MAX_DELAY : Z) (d : Delay) (v : Z) :
  delay_inv d → delay_inv (set_delay MAX_DELAY d v).
Proof.
  intros Hd. unfold set_delay, MIN_DELAY.
  set (c := Z.max 0 (Z.min MAX_DELAY v)).
  assert (0 <= c) as Hc by (subst c; lia).
  destruct (Z.eqb_spec c (delay_samples d)); [done|].
  destruct (Z.leb_spec c 0).
  - change (Py.deque_of [0] 1) with (Py.Deque [0] 1).
    unfold delay_inv. cbn. split; [lia|]. split; [lia|]. split; [lia|].
    apply Forall_cons. split; [by left|constructor].
  - rewrite deque_of_zeros by lia. unfold delay_inv. cbn.
    rewrite length_replicate. split; [lia|]. split; [lia|]. split; [lia|].
    apply Forall_replicate. by left.
Qed.

(** A push on a line with room for at least one item is always followed
    by a pop that finds something, and the line stays within its capacity. *)
Lemma push_pop_inv (P : Z → Prop) (line : Py.deque) (w : Z) :
  1 <= Py.maxlen line →
  Z.of_nat (length (Py.items line)) <= Py.maxlen line →
  Forall P (Py.items line) → P w →
  ∃ R line', push_pop line w = Ok (R, line')
    ∧ P R
    ∧ Py.maxlen line' = Py.maxlen line
    ∧ Z.of_nat (length (Py.items line')) <= Py.maxlen line'
    ∧ Forall P (Py.items line').
Proof.
  intros Hmax Hlen Hall Hw. unfold push_pop, Py.append, Py.popleft. cbn.
  set (l := if Py.maxlen line <? Z.of_nat (length (Py.items line ++ [w]))
            then drop 1 (Py.items line ++ [w]) else Py.items line ++ [w]).
  assert (Forall P (Py.items line ++ [w])) as Hall'.
  { apply Forall_app. split; [done|by constructor]. }
  assert (Forall P l ∧ 1 <= Z.of_nat (length l) <= Py.maxlen line) as [Hl Hll].
  { subst l. rewrite length_app. cbn [length].
    destruct (Z.ltb_spec (Py.maxlen line) (Z.of_nat (length (Py.items line) + 1))).
    - split; [by apply Forall_drop|].
      rewrite length_drop, length_app. cbn [length]. lia.
    - split; [done|]. rewrite length_app. cbn [length]. lia. }
  destruct l as [|x r]; [cbn in Hll; lia|].
  apply Forall_cons in Hl as [Hx Hr].
  do 2 eexists. split; [reflexivity|]. cbn in *. repeat split; try done; lia.
Qed.

Lemma synth_ok (d : Delay) (read_sym write_sym : Z) :
  delay_inv d →
  ∃ L R d', synth d read_sym write_sym = Ok (L, R, d')
    ∧ L = bit_to_i16 (read_sym =? 1)
    ∧ (R = 0 ∨ R = 12000)
    ∧ delay_inv d'
    ∧ delay_samples d' = delay_samples d
    ∧ line_obj d' = line_obj d.
Proof.
  intros Hd.
  assert (∀ b, bit_to_i16 b = 0 ∨ bit_to_i16 b = 12000) as Hbit.
  { intros []; cbn; auto. }
  unfold synth.
  destruct (Z.leb_spec (delay_samples d) 0) as [Hoff|Hon].
  - do 3 eexists. split; [reflexivity|].
    split; [done|]. split; [apply Hbit|]. by split.
  - destruct Hd as (Hds & Hmax & Hlen & Hall).
    destruct (push_pop_inv (fun x => x = 0 ∨ x = 12000) (delay_line d)
                (bit_to_i16 (write_sym =? 1)))
      as (R & line' & Hpp & HR & Hmax' & Hlen' & Hall'); try done; [lia|].
    rewrite Hpp. cbn.
    do 3 eexists. split; [reflexivity|].
    split; [done|]. split; [done|]. split; [|done].
    unfold delay_inv. cbn.
    split; [done|]. split; [congruence|]. by split.
Qed.

(** X9.  From a delay state that holds its invariant, whatever key moves the
    knob leaves the invariant true, and the synthesizer always returns: it
    never pops an empty line, its two samples are 0 or 12000 each, and it
    changes neither the knob's value nor the deque object. *)
Theorem synth_total_in_range (MAX_DELAY : Z) (d : Delay) (v read_sym write_sym : Z) :
  delay_inv d →
  delay_inv (set_delay MAX_DELAY d v)
  ∧ ∃ L R d', synth d read_sym write_sym = Ok (L, R, d')
      ∧ L = bit_to_i16 (read_sym =? 1)
      ∧ (R = 0 ∨ R = 12000)
      ∧ delay_inv d'
      ∧ delay_samples d' = delay_samples d
      ∧ line_obj d' = line_obj d.
Proof.
  intros Hd. split; [by apply set_delay_inv|by apply synth_ok].
Qed.

Lemma synth_total_in_range_witness :
  delay_inv (set_delay 22000 initial_delay 7)
  ∧ ∃ L R d', synth initial_delay 1 0 = Ok (L, R, d')
      ∧ L = bit_to_i16 (1 =? 1)
      ∧ (R = 0 ∨ R = 12000)
      ∧ delay_inv d'
      ∧ delay_samples d' = delay_samples initial_delay
      ∧ line_obj d' = line_obj initial_delay.
Proof. apply (synth_total_in_range 22000 initial_delay 7 1 0). exact initial_delay_inv. Defined.

(** X10.  Asking twice for the same delay is asking once, and the value kept is
    the request clamped: never negative, and never above a ceiling that is
    not itself negative. *)
Theorem set_delay_idempotent (MAX_DELAY : Z) (d : Delay) (v : Z) :
  set_delay MAX_DELAY (set_delay MAX_DELAY d v) v = set_delay MAX_DELAY d v
  ∧ 0 <= delay_samples (set_delay MAX_DELAY d v)
  ∧ (0 <= MAX_DELAY → delay_samples (set_delay MAX_DELAY d v) <= MAX_DELAY)
  ∧ (0 <= v <= MAX_DELAY → delay_samples (set_delay MAX_DELAY d v) = v).
Proof.
  pose proof (set_delay_samples MAX_DELAY d v) as Hs.
  repeat split; try lia.
  unfold set_delay at 1. unfold MIN_DELAY. rewrite Hs.
  by rewrite Z.eqb_refl.
Qed.

(** X11.  One notch up and one notch down on the fine knob, below the ceiling:
    the delay is back at its value, but the line has been rebuilt twice
    and holds zeros only, whatever was buffered; nothing else in the
    session has changed. *)
Theorem fine_knob_there_and_back (N audio_hz : Z) (s : Session) (running : bool) :
  0 <= delay_samples (delay s) < audio_hz →
  handle_events N audio_hz (s, running) [K_RIGHTBRACKET; K_LEFTBRACKET]
  = Ok ({| state := state s;
           delay := {| delay_samples := delay_samples (delay s);
                       delay_line :=
                         Py.Deque (replicate (Z.to_nat (Z.max 1 (delay_samples (delay s)))) 0)
                                  (Z.max 1 (delay_samples (delay s)));
                       line_obj := S (S (line_obj (delay s))) |};
           step_acc := step_acc s; chunk := chunk s; playback := playback s;
           chan := chan s |}, running).
Proof.
  intros Hds. cbn.
  set (d := delay s) in *.
  rewrite (set_delay_changed audio_hz d (delay_samples d + 1)) by lia. cbn.
  replace (Z.max 0 (Z.min audio_hz (delay_samples d + 1))) with (delay_samples d + 1) by lia.
  rewrite set_delay_changed by (cbn; lia). cbn.
  replace (Z.max 0 (Z.min audio_hz (delay_samples d + 1 - 1))) with (delay_samples d) by lia.
  done.
Qed.

Lemma fine_knob_there_and_back_witness :
  handle_events 8 22000
    ({| state := blank_state;
        delay := {| delay_samples := 3; delay_line := Py.Deque [0; 12000] 3; line_obj := 4 |};
        step_acc := 0; chunk := [1; 2; 3; 4]; playback := initial_playback; chan := [] |},
     true)
    [K_RIGHTBRACKET; K_LEFTBRACKET]
  = Ok ({| state := blank_state;
           delay := {| delay_samples := 3;
                       delay_line := Py.Deque (replicate (Z.to_nat (Z.max 1 3)) 0) (Z.max 1 3);
                       line_obj := 6 |};
           step_acc := 0; chunk := [1; 2; 3; 4]; playback := initial_playback;
           chan := [] |}, true).
Proof.
  apply (fine_knob_there_and_back 8 22000
           {| state := blank_state;
              delay := {| delay_samples := 3; delay_line := Py.Deque [0; 12000] 3;
                          line_obj := 4 |};
              step_acc := 0; chunk := [1; 2; 3; 4]; playback := initial_playback;
              chan := [] |} true).
  cbn. lia.
Defined.

(** ** The packetizer *)

Lemma pack_h_bytes (v : Z) (bytes : list Z) :
  pack_h v = Ok bytes →
  length bytes = 2%nat ∧ Forall (fun b => 0 <= b < 256) bytes.
Proof.
  unfold pack_h. destruct (_ && _); [|done]. intros [= <-].
  split; [done|].
  pose proof (Z.mod_pos_bound v 65536 ltac:(lia)) as Hu.
  repeat constructor.
  - apply Z.mod_pos_bound. lia.
  - apply Z.mod_pos_bound. lia.
  - apply Z.div_pos; lia.
  - apply Z.div_lt_upper_bound; lia.
Qed.

Lemma pack_hh_bytes (L R : Z) (bytes : list Z) :
  pack_hh L R = Ok bytes →
  length bytes = 4%nat ∧ Forall (fun b => 0 <= b < 256) bytes.
Proof.
  unfold pack_hh.
  destruct (pack_h L) as [|l] eqn:Hl; [done|]. cbn.
  destruct (pack_h R) as [|r] eqn:Hr; [done|]. cbn.
  intros [= <-].
  apply pack_h_bytes in Hl as [Hll Hlb], Hr as [Hrl Hrb].
  split; [rewrite length_app; lia|by apply Forall_app].
Qed.

Lemma dispatch_sound {Sound} (pb : Playback) (busy : bool) (snd : Sound) :
  call_sound (dispatch pb busy snd).2 = snd.
Proof.
  unfold dispatch. destruct (negb _); cbn.
  - by destruct (_ =? _).
  - by destruct busy.
Qed.

(** One turn of the step loop adds the four bytes of one sample pair to
    the stream, and it keeps the packets in shape. *)
Lemma loop_body_stream program N audio_hz busy s s' :
  loop_body program N audio_hz busy s = Ok s' →
  (∃ bytes, stream s' = stream s ++ bytes
            ∧ length bytes = 4%nat ∧ Forall (fun b => 0 <= b < 256) bytes)
  ∧ (packet_inv audio_hz s → packet_inv audio_hz s').
Proof.
  unfold loop_body.
  destruct (fetch program (state s)) as [|[[tc read_sym] rule]]; [done|]. cbn.
  destruct (synth (delay s) read_sym (write rule)) as [|[[L R] delay1]]; [done|]. cbn.
  destruct (pack_hh L R) as [|packed] eqn:Hpack; [done|]. cbn.
  destruct (commit N (state s) tc read_sym rule) as [|[state1 ev]]; [done|]. cbn.
  apply pack_hh_bytes in Hpack as [Hlen Hbytes].
  assert (CHUNK_BYTES audio_hz `mod` 4 = 0 ∧ 4 <= CHUNK_BYTES audio_hz) as [Hcb4 Hcb].
  { unfold CHUNK_BYTES, CHUNK_FRAMES. split; [apply Z.mod_mul; lia|lia]. }
  destruct (Z.leb_spec (CHUNK_BYTES audio_hz) (Z.of_nat (length (chunk s ++ packed))))
    as [Hfull|Hroom].
  - pose proof (dispatch_sound (playback s) busy (chunk s ++ packed)) as Hsnd.
    destruct (dispatch (playback s) busy (chunk s ++ packed)) as [playback1 call].
    cbn in Hsnd. intros [= <-]. split.
    + exists packed. unfold stream. cbn.
      rewrite fmap_app, concat_app. cbn. rewrite Hsnd, !app_nil_r, app_assoc. done.
    + intros (Hmod & Hlt & Hall). unfold packet_inv. cbn.
      split; [done|]. split; [lia|].
      apply Forall_app. split; [done|]. constructor; [|done].
      rewrite Hsnd. rewrite length_app, Hlen in Hfull |- *.
      assert (Z.of_nat (length (chunk s)) `mod` 4 = 0) as Hm by done.
      apply Z.mod_divide in Hm as [a Ha]; [|lia].
      apply Z.mod_divide in Hcb4 as [b Hb]; [|lia]. lia.
  - intros [= <-]. split.
    + exists packed. unfold stream. cbn. by rewrite app_assoc.
    + intros (Hmod & Hlt & Hall). unfold packet_inv. cbn.
      split; [|split; [lia|done]].
      rewrite length_app, Hlen.
      replace (Z.of_nat (length (chunk s) + 4)) with (Z.of_nat (length (chunk s)) + 1 * 4)
        by lia.
      by rewrite Z.mod_add by lia.
Qed.

Lemma step_loop_grows (program : gmap (Z * Z) Rule) (N audio_hz : Z)
    (busy : nat → bool) (k n : nat) (s s' : Session) :
  step_loop program N audio_hz busy k n s = Ok s' →
  ∃ bytes, stream s' = stream s ++ bytes
           ∧ length bytes = (4 * n)%nat
           ∧ Forall (fun b => 0 <= b < 256) bytes.
Proof.
  revert k s. induction n as [|n IH]; intros k s Hrun.
  - injection Hrun as <-. exists []. by rewrite app_nil_r.
  - cbn [step_loop] in Hrun.
    destruct (loop_body program N audio_hz (busy k) s) as [|s1] eqn:Hbody; [done|].
    cbn in Hrun.
    apply loop_body_stream in Hbody as [(b1 & Hs1 & Hl1 & Hb1) _].
    apply IH in Hrun as (b2 & Hs2 & Hl2 & Hb2).
    exists (b1 ++ b2). rewrite Hs2, Hs1, app_assoc.
    split; [done|]. split; [rewrite length_app; lia|by apply Forall_app].
Qed.

(** X12.  Sealing packets never loses, repeats or reorders audio.  Over [n]
    turns of the step loop that return, the stream (the packets handed to
    the channel, then the packet being filled) grows at its end by exactly
    [4 * n] bytes, each in [0, 256), and what was there before is still
    there. *)
Theorem step_loop_stream (program : gmap (Z * Z) Rule) (N audio_hz : Z)
    (busy : nat → bool) (k n : nat) (s s' : Session) :
  step_loop program N audio_hz busy k n s = Ok s' →
  ∃ bytes, stream s' = stream s ++ bytes
           ∧ length bytes = (4 * n)%nat
           ∧ Forall (fun b => 0 <= b < 256) bytes.
Proof. apply step_loop_grows. Qed.

(** X13.  Every packet handed to the channel is exactly [CHUNK_BYTES] long, and
    the packet being filled holds whole sample pairs and is short of that
    size: true of a session with no audio yet, and kept by any number of
    turns of the step loop. *)
Theorem packets_are_full_size (program : gmap (Z * Z) Rule) (N audio_hz : Z)
    (busy : nat → bool) (k n : nat) (s s' : Session) :
  packet_inv audio_hz s →
  step_loop program N audio_hz busy k n s = Ok s' →
  packet_inv audio_hz s'.
Proof.
  revert k s. induction n as [|n IH]; intros k s Hinv Hrun.
  - by injection Hrun as <-.
  - cbn [step_loop] in Hrun.
    destruct (loop_body program N audio_hz (busy k) s) as [|s1] eqn:Hbody; [done|].
    cbn in Hrun.
    apply loop_body_stream in Hbody as [_ Hkeep].
    eapply IH; [|exact Hrun]. by apply Hkeep.
Qed.

Lemma fresh_session_packets audio_hz state : packet_inv audio_hz (fresh_session state).
Proof.
  unfold packet_inv, CHUNK_BYTES, CHUNK_FRAMES. cbn.
  split; [done|]. split; [lia|constructor].
Qed.

Lemma step_loop_stream_witness :
  ∃ bytes,
    stream {| state := {| tape := [1; 0; 1; 0]; i := 3; pc := 2; cycle := 3 |};
              delay := initial_delay; step_acc := 0;
              chunk := [0; 0; 224; 46; 224; 46; 0; 0; 0; 0; 224; 46];
              playback := initial_playback; chan := [] |}
    = stream (fresh_session {| tape := [0; 1; 0; 0]; i := 0; pc := 1; cycle := 0 |})
      ++ bytes
    ∧ length bytes = (4 * 3)%nat
    ∧ Forall (fun b => 0 <= b < 256) bytes.
Proof.
  apply (step_loop_stream oscillator 4 22000 (fun _ => true) 0 3).
  vm_compute. reflexivity.
Defined.

Lemma packets_are_full_size_witness :
  ∃ s', step_loop oscillator 8 1000 (fun _ => true) 0 300
          (fresh_session {| tape := [0; 0; 1; 0; 0; 0; 0; 0]; i := 0; pc := 1; cycle := 0 |})
        = Ok s'
        ∧ length (chan s') = 1%nat
        ∧ packet_inv 1000 s'.
Proof.
  destruct (step_loop oscillator 8 1000 (fun _ => true) 0 300
              (fresh_session {| tape := [0; 0; 1; 0; 0; 0; 0; 0]; i := 0; pc := 1;
                                cycle := 0 |})) as [e|s'] eqn:Hrun.
  - vm_compute in Hrun. discriminate Hrun.
  - exists s'. split; [reflexivity|]. split.
    + vm_compute in Hrun. injection Hrun as <-. reflexivity.
    + apply (packets_are_full_size oscillator 8 1000 (fun _ => true) 0 300
               (fresh_session {| tape := [0; 0; 1; 0; 0; 0; 0; 0]; i := 0; pc := 1;
                                 cycle := 0 |}) s').
      * apply fresh_session_packets.
      * exact Hrun.
Defined.

(** ** A whole session under a closed table *)

Lemma pack_hh_ok (L R : Z) :
  (L = 0 ∨ L = 12000) → (R = 0 ∨ R = 12000) → ∃ bytes, pack_hh L R = Ok bytes.
Proof. intros [-> | ->] [-> | ->]; eexists; reflexivity. Qed.

Section ClosedSession.

Variables (fs : file_system) (csv_path : string) (program : gmap (Z * Z) Rule).
Variables (N audio_hz : Z).
Hypothesis loaded : load_program fs csv_path = Ok program.
Hypothesis closed : closed_table program.
Hypothesis tape_cells : 1 <= N.

Lemma loop_body_ok busy s :
  session_inv program N s →
  ∃ s', loop_body program N audio_hz busy s = Ok s' ∧ session_inv program N s'.
Proof.
  intros [Hrun Hdelay].
  destruct (step_run_invariant _ _ _ _ _ loaded closed Hrun)
    as (read_sym & rule & state1 & ev & Hfetch & Hstep & Hrun1).
  destruct (synth_ok (delay s) read_sym (write rule) Hdelay)
    as (L & R & delay1 & Hsynth & HL & HR & Hdelay1 & _).
  destruct (pack_hh_ok L R) as [bytes Hpack]; [|done|].
  { subst L. destruct (read_sym =? 1); cbn; auto. }
  unfold machine_step in Hstep. rewrite Hfetch in Hstep. cbn in Hstep.
  unfold loop_body. rewrite Hfetch. cbn. rewrite Hsynth. cbn.
  rewrite Hpack. cbn. rewrite Hstep. cbn.
  destruct (_ <=? _).
  - destruct (dispatch _ _ _) as [playback1 call]. eexists. split; [done|]. by split.
  - eexists. split; [done|]. by split.
Qed.

Lemma step_loop_ok busy n : ∀ k s,
  session_inv program N s →
  ∃ s', step_loop program N audio_hz busy k n s = Ok s' ∧ session_inv program N s'.
Proof.
  induction n as [|n IH]; intros k s Hinv; [by eexists|].
  destruct (loop_body_ok (busy k) s Hinv) as (s1 & Hbody & Hinv1).
  cbn [step_loop]. rewrite Hbody. cbn. by apply IH.
Qed.

Lemma handle_event_ok s running e :
  session_inv program N s →
  ∃ s' running', handle_event N audio_hz (s, running) e = Ok (s', running')
    ∧ session_inv program N s'.
Proof.
  intros [Hrun Hdelay].
  destruct e; cbn; try (do 2 eexists; split; [done|]; by split);
    try (do 2 eexists; split; [done|]; split; [done|]; by apply set_delay_inv).
  rewrite reset_machine_ok by done. cbn.
  do 2 eexists. split; [done|]. split; [|done]. cbn.
  eapply reset_run_invariant; [done..|]. by apply (reset_machine_ok blank_state).
Qed.

Lemma handle_events_ok es : ∀ s running,
  session_inv program N s →
  ∃ s' running', handle_events N audio_hz (s, running) es = Ok (s', running')
    ∧ session_inv program N s'.
Proof.
  induction es as [|e es IH]; intros s running Hinv; [by do 2 eexists|].
  destruct (handle_event_ok s running e Hinv) as (s1 & r1 & Hev & Hinv1).
  cbn [handle_events]. rewrite Hev. cbn. by apply IH.
Qed.

Lemma frame_ok fps events busy s :
  session_inv program N s →
  ∃ s' running, frame program N fps audio_hz events busy s = Ok (s', running)
    ∧ session_inv program N s'.
Proof.
  intros Hinv.
  destruct (handle_events_ok events s true Hinv) as (s1 & r1 & Hev & [Hrun1 Hdelay1]).
  unfold frame. rewrite Hev. cbn.
  destruct (schedule audio_hz fps (step_acc s1)) as [steps acc1].
  match goal with |- context [step_loop _ _ _ _ _ ?n ?s2] =>
    destruct (step_loop_ok busy n O s2) as (s3 & Hloop & Hinv3) end.
  { by split. }
  rewrite Hloop. cbn. eauto.
Qed.

Lemma frames_ok fps inputs : ∀ s,
  session_inv program N s →
  ∃ s', frames program N fps audio_hz inputs s = Ok s' ∧ session_inv program N s'.
Proof.
  induction inputs as [|[events busy] inputs IH]; intros s Hinv; [by eexists|].
  destruct (frame_ok fps events busy s Hinv) as (s1 & running & Hframe & Hinv1).
  cbn [frames]. rewrite Hframe.
  destruct running; [by apply IH|by eexists].
Qed.

End ClosedSession.

(** X14.  A session that started never raises under a closed table.  When
    [start] returns (the table loaded, the frame rate is not 0, the tape
    has a cell) and the table is closed, any number of frames, with any
    keys pressed and any answers from the device, run to their end: no
    lookup fails, no index leaves the tape, no pop finds the delay line
    empty and no sample is out of range for packing. *)
Theorem session_never_raises (fs : file_system) (N fps audio_hz : Z)
    (program_path : string) (program : gmap (Z * Z) Rule) (s : Session)
    (inputs : list (list event * (nat → bool))) :
  start fs N fps audio_hz program_path = Ok (program, s) →
  closed_table program →
  ∃ s', frames program N fps audio_hz inputs s = Ok s'
        ∧ wf_state N (state s')
        ∧ 0 <= delay_samples (delay s').
Proof.
  intros Hstart Hclosed. unfold start in Hstart.
  destruct (load_program fs program_path) as [|program'] eqn:Hload; [done|].
  cbn in Hstart.
  destruct (Py.floordiv audio_hz fps); [done|]. cbn in Hstart.
  destruct (Z_lt_le_dec N 1) as [Hsmall|HN].
  { rewrite reset_machine_nonpos in Hstart by lia. done. }
  rewrite reset_machine_ok in Hstart by done. cbn in Hstart.
  injection Hstart as -> <-.
  destruct (frames_ok fs program_path program N audio_hz Hload Hclosed HN fps inputs
              {| state := {| tape := <[Z.to_nat (N / 4) := 1]> (replicate (Z.to_nat N) 0);
                             i := 0; pc := 1; cycle := 0 |};
                 delay := initial_delay; step_acc := 0; chunk := [];
                 playback := initial_playback; chan := [] |})
    as (s' & Hframes & [(Hwf & _) (Hds & _)]).
  { split; cbn; [|exact initial_delay_inv].
    eapply reset_run_invariant; [done..|]. by apply (reset_machine_ok blank_state). }
  eauto.
Qed.

Lemma session_never_raises_witness :
  ∃ s', frames oscillator 8 60 22000
          [([K_RIGHTBRACKET], fun _ => false); ([K_r; K_MINUS], fun _ => true)]
          (fresh_session {| tape := [0; 0; 1; 0; 0; 0; 0; 0]; i := 0; pc := 1; cycle := 0 |})
        = Ok s'
        ∧ wf_state 8 (state s')
        ∧ 0 <= delay_samples (delay s').
Proof.
  apply (session_never_raises oscillator_fs 8 60 22000 "program.csv").
  - vm_compute. reflexivity.
  - apply (bool_decide_unpack (closed_table oscillator)). vm_compute. exact I.
Defined.

(** ** Quitting *)

(** The events of a frame leave [running] set exactly when it was set and
    none of them is a quit (the window's close, Escape or q); the events
    after a quit are still handled. *)
Lemma handle_events_running (N audio_hz : Z) (es : list event) :
  ∀ s running s' running',
  handle_events N audio_hz (s, running) es = Ok (s', running') →
  running' = running && forallb (fun e => negb (is_quit e)) es.
Proof.
  induction es as [|e es IH]; intros s running s' running' Hrun.
  - injection Hrun as _ <-. by rewrite andb_true_r.
  - cbn [handle_events] in Hrun.
    destruct (handle_event N audio_hz (s, running) e) as [|[s1 r1]] eqn:Hev; [done|].
    cbn in Hrun. apply IH in Hrun as ->. cbn [forallb].
    assert (r1 = running && negb (is_quit e)) as ->.
    { destruct e; cbn in Hev; try (injection Hev as _ <-; cbn;
        by rewrite ?andb_true_r, ?andb_false_r).
      destruct (reset_machine (state s) N); [done|]. cbn in Hev.
      injection Hev as _ <-. by rewrite andb_true_r. }
    by rewrite andb_assoc.
Qed.

(** X15.  A quit stops the loop after the frame it arrives in: that frame still
    runs its events and its steps, and no later frame runs, whatever
    inputs are pending. *)
Theorem quit_stops_after_frame (program : gmap (Z * Z) Rule) (N fps audio_hz : Z)
    (events : list event) (busy : nat → bool)
    (rest : list (list event * (nat → bool))) (s : Session) :
  existsb is_quit events = true →
  frames program N fps audio_hz ((events, busy) :: rest) s
  = fst <$> frame program N fps audio_hz events busy s.
Proof.
  intros Hquit. cbn [frames].
  destruct (frame program N fps audio_hz events busy s) as [|[s1 running]] eqn:Hframe;
    [done|].
  destruct running; [|done]. exfalso.
  unfold frame in Hframe.
  destruct (handle_events N audio_hz (s, true) events) as [|[s0 r0]] eqn:Hev; [done|].
  apply handle_events_running in Hev. cbn in Hframe.
  destruct (schedule _ _ _) as [steps acc1].
  destruct (step_loop _ _ _ _ _ _ _); [done|]. cbn in Hframe.
  injection Hframe as _ ->. cbn in Hev.
  apply existsb_exists in Hquit as (e & Hin & He).
  symmetry in Hev. rewrite forallb_forall in Hev. specialize (Hev e Hin).
  by rewrite He in Hev.
Qed.

Lemma quit_stops_after_frame_witness :
  frames oscillator 4 60 22000
    (([K_r; QUIT], fun _ => true) :: [([K_r], fun _ => true); ([], fun _ => true)])
    (fresh_session {| tape := [0; 1; 0; 0]; i := 0; pc := 1; cycle := 0 |})
  = fst <$> frame oscillator 4 60 22000 [K_r; QUIT] (fun _ => true)
              (fresh_session {| tape := [0; 1; 0; 0]; i := 0; pc := 1; cycle := 0 |}).
Proof.
  apply (quit_stops_after_frame oscillator 4 60 22000 [K_r; QUIT] (fun _ => true)).
  reflexivity.
Defined.

(** ** A frame runs the steps the scheduler gives it *)

Lemma machine_step_cycle program N state state' ev :
  machine_step program N state = Ok (state', ev) → cycle state' = cycle state + 1.
Proof.
  unfold machine_step.
  destruct (fetch program state) as [|[[tc read_sym] rule]]; [done|]. cbn.
  unfold commit.
  destruct (Py.list_setitem _ _ _); [done|]. cbn.
  destruct (Py.floordiv _ _); [done|]. cbn.
  destruct (Py.mod_ _ _); [done|]. cbn.
  destruct (next_head _ _ _); [done|]. cbn.
  by intros [= <- _].
Qed.

Lemma loop_body_step_acc program N audio_hz busy s s' :
  loop_body program N audio_hz busy s = Ok s' → step_acc s' = step_acc s.
Proof.
  unfold loop_body.
  destruct (fetch program (state s)) as [|[[tc read_sym] rule]]; [done|]. cbn.
  destruct (synth (delay s) read_sym (write rule)) as [|[[L R] delay1]]; [done|]. cbn.
  destruct (pack_hh L R) as [|packed]; [done|]. cbn.
  destruct (commit N (state s) tc read_sym rule) as [|[state1 ev]]; [done|]. cbn.
  destruct (_ <=? _).
  - destruct (dispatch _ _ _). by intros [= <-].
  - by intros [= <-].
Qed.

Lemma step_loop_counts program N audio_hz busy n : ∀ k s s',
  step_loop program N audio_hz busy k n s = Ok s' →
  step_acc s' = step_acc s
  ∧ cycle (state s') = cycle (state s) + Z.of_nat n.
Proof.
  induction n as [|n IH]; intros k s s' Hrun.
  - injection Hrun as <-. split; [done|lia].
  - cbn [step_loop] in Hrun.
    destruct (loop_body program N audio_hz (busy k) s) as [|s1] eqn:Hbody; [done|].
    cbn in Hrun. apply IH in Hrun as [Hacc Hcycle].
    pose proof (loop_body_step_acc _ _ _ _ _ _ Hbody) as Hacc1.
    apply loop_body_steps_machine in Hbody as [ev Hstep].
    apply machine_step_cycle in Hstep. split; [congruence|lia].
Qed.

(** The keys touch neither the scheduler nor the audio produced so far,
    and only [K_r] touches the machine. *)
Lemma handle_events_keeps N audio_hz es : ∀ s running s' running',
  handle_events N audio_hz (s, running) es = Ok (s', running') →
  step_acc s' = step_acc s ∧ chunk s' = chunk s ∧ chan s' = chan s
  ∧ playback s' = playback s
  ∧ (K_r ∉ es → state s' = state s).
Proof.
  induction es as [|e es IH]; intros s running s' running' Hrun.
  - by injection Hrun as <- _.
  - cbn [handle_events] in Hrun.
    destruct (handle_event N audio_hz (s, running) e) as [|[s1 r1]] eqn:Hev; [done|].
    cbn in Hrun. apply IH in Hrun as (Hacc & Hchunk & Hchan & Hpb & Hstate).
    assert (step_acc s1 = step_acc s ∧ chunk s1 = chunk s ∧ chan s1 = chan s
            ∧ playback s1 = playback s ∧ (e ≠ K_r → state s1 = state s))
      as (Hacc1 & Hchunk1 & Hchan1 & Hpb1 & Hstate1).
    { destruct e; cbn in Hev; try (by injection Hev as <- _).
      destruct (reset_machine (state s) N); [done|]. cbn in Hev.
      by injection Hev as <- _. }
    repeat split; try congruence.
    intros Hno. rewrite Hstate, Hstate1; [done|..].
    + intros ->. apply Hno. by left.
    + intros Hin. apply Hno. by right.
Qed.

(** X16.  A frame that returns has taken the scheduler one frame forward and
    has produced four bytes of audio for each of the [max(1, steps)] turns
    of its step loop; unless a reset key came in, the step count has grown
    by that same number. *)
Theorem frame_runs_scheduled_steps (program : gmap (Z * Z) Rule)
    (N fps audio_hz : Z) (events : list event) (busy : nat → bool)
    (s s' : Session) (running : bool) :
  frame program N fps audio_hz events busy s = Ok (s', running) →
  let steps := steps_run (schedule audio_hz fps (step_acc s)).1 in
  step_acc s' = (schedule audio_hz fps (step_acc s)).2
  ∧ Z.of_nat (length (stream s')) = Z.of_nat (length (stream s)) + 4 * steps
  ∧ (K_r ∉ events → cycle (state s') = cycle (state s) + steps).
Proof.
  unfold frame. intros Hframe.
  destruct (handle_events N audio_hz (s, true) events) as [|[s1 r1]] eqn:Hev; [done|].
  apply handle_events_keeps in Hev as (Hacc & Hchunk & Hchan & _ & Hstate).
  cbn in Hframe. rewrite Hacc in Hframe.
  destruct (schedule audio_hz fps (step_acc s)) as [steps acc1]. cbn [fst snd].
  destruct (step_loop _ _ _ _ _ _ _) as [|s3] eqn:Hloop; [done|].
  cbn in Hframe. injection Hframe as <- _.
  pose proof (step_loop_counts _ _ _ _ _ _ _ _ Hloop) as [Hacc3 Hcycle].
  apply step_loop_grows in Hloop as (bytes & Hstream & Hlen & _).
  cbn in Hacc3, Hcycle. unfold steps_run in *.
  split; [done|]. split.
  - rewrite Hstream, length_app, Hlen. unfold stream. cbn.
    rewrite Hchunk, Hchan. lia.
  - intros Hno. rewrite Hcycle, (Hstate Hno). lia.
Qed.

Lemma frame_runs_scheduled_steps_witness :
  let s := fresh_session {| tape := [0; 1; 0; 0]; i := 0; pc := 1; cycle := 0 |} in
  let s' := {| state := {| tape := [1; 0; 1; 0]; i := 3; pc := 2; cycle := 3 |};
               delay := initial_delay; step_acc := 1;
               chunk := [0; 0; 224; 46; 224; 46; 0; 0; 0; 0; 224; 46];
               playback := initial_playback; chan := [] |} in
  let steps := steps_run (schedule 7 2 (step_acc s)).1 in
  step_acc s' = (schedule 7 2 (step_acc s)).2
  ∧ Z.of_nat (length (stream s')) = Z.of_nat (length (stream s)) + 4 * steps
  ∧ (K_r ∉ [K_other] → cycle (state s') = cycle (state s) + steps).
Proof.
  intros s s'.
  apply (frame_runs_scheduled_steps oscillator 4 2 7 [K_other] (fun _ => true) s s' true).
  vm_compute. reflexivity.
Defined.

(** ** Rendering *)

(** X17.  The step loop inks a pixel only for a written 1, and the square it
    inks lies inside the canvas of [N * scale] by [N * scale]: for a step
    from a well-formed state whose rule exists and a scale of at least 1,
    [draw_pixel] on the step's row, column and written symbol either inks
    nothing (the symbol is not 1) or asks for one square, in teal with the
    current brightness: its side is exactly [scale] both ways, its left edge
    is the head's cell times [scale], its top edge the row
    [(cycle // N) % N] times [scale], and so it lies within the canvas. *)
Theorem pixel_inside_canvas (program : gmap (Z * Z) Rule) (N scale alpha : Z)
    (state : MachineState) (read_sym : Z) (rule : Rule) :
  wf_state N state → 1 <= scale →
  tape state !! Z.to_nat (i state) = Some read_sym →
  program !! (pc state, read_sym) = Some rule →
  ∃ state' ev, machine_step program N state = Ok (state', ev)
    ∧ match draw_pixel scale alpha (row ev) (col ev) (symbol_written ev) with
      | None => write rule ≠ 1
      | Some (r, g, b, a, rect) =>
          write rule = 1 ∧ (r, g, b, a) = (0, 70, 70, alpha)
          ∧ 0 <= rect_x rect ∧ rect_x rect + rect_w rect <= N * scale
          ∧ 0 <= rect_y rect ∧ rect_y rect + rect_h rect <= N * scale
          ∧ rect_x rect = i state * scale
          ∧ rect = {| rect_x := i state * scale;
                      rect_y := (cycle state / N) `mod` N * scale;
                      rect_w := scale; rect_h := scale |}
      end.
Proof.
  intros Hwf Hscale Hread Hrule.
  rewrite (machine_step_ok _ _ _ _ _ Hwf Hread Hrule).
  destruct Hwf as [Hlen Hi].
  do 2 eexists. split; [reflexivity|]. cbn.
  unfold draw_pixel.
  destruct (Z.eqb_spec (write rule) 1) as [Hone|Hother]; cbn; [|done].
  pose proof (Z.mod_pos_bound (cycle state / N) N ltac:(lia)) as Hrow.
  repeat split; try done; nia.
Qed.

Lemma pixel_inside_canvas_witness :
  ∃ state' ev,
    machine_step oscillator 4 {| tape := [0; 1; 0; 0]; i := 3; pc := 1; cycle := 9 |}
    = Ok (state', ev)
    ∧ match draw_pixel 2 6 (row ev) (col ev) (symbol_written ev) with
      | None => write {| write := 1; move := 1; next_pc := 2 |} ≠ 1
      | Some (r, g, b, a, rect) =>
          write {| write := 1; move := 1; next_pc := 2 |} = 1
          ∧ (r, g, b, a) = (0, 70, 70, 6)
          ∧ 0 <= rect_x rect ∧ rect_x rect + rect_w rect <= 4 * 2
          ∧ 0 <= rect_y rect ∧ rect_y rect + rect_h rect <= 4 * 2
          ∧ rect_x rect = 3 * 2
          ∧ rect = {| rect_x := 3 * 2; rect_y := (9 / 4) `mod` 4 * 2;
                      rect_w := 2; rect_h := 2 |}
      end.
Proof.
  apply (pixel_inside_canvas oscillator 4 2 6
           {| tape := [0; 1; 0; 0]; i := 3; pc := 1; cycle := 9 |} 0
           {| write := 1; move := 1; next_pc := 2 |}).
  - split; cbn; lia.
  - lia.
  - reflexivity.
  - reflexivity.
Defined.

(** X18.  Whatever ink keys are pressed, in whatever order, the brightness stays
    in [0, 255] and the fade rate in [0, 50] once they are there, as they
    are at the start. *)
Theorem ink_stays_in_range (ink : Ink) (keys : list ink_key) :
  0 <= draw_alpha ink <= 255 → 0 <= decay_alpha ink <= 50 →
  0 <= draw_alpha (foldl handle_ink_key ink keys) <= 255
  ∧ 0 <= decay_alpha (foldl handle_ink_key ink keys) <= 50.
Proof.
  revert ink. induction keys as [|k keys IH]; intros ink Hdraw Hdecay; [done|].
  cbn [foldl]. apply IH; destruct k; cbn; lia.
Qed.

Lemma ink_stays_in_range_witness :
  0 <= draw_alpha (foldl handle_ink_key initial_ink
                     [K_COMMA; K_COMMA; K_COMMA; K_QUOTE; K_SEMICOLON; K_PERIOD]) <= 255
  ∧ 0 <= decay_alpha (foldl handle_ink_key initial_ink
                        [K_COMMA; K_COMMA; K_COMMA; K_QUOTE; K_SEMICOLON; K_PERIOD]) <= 50.
Proof.
  apply (ink_stays_in_range initial_ink
           [K_COMMA; K_COMMA; K_COMMA; K_QUOTE; K_SEMICOLON; K_PERIOD]); cbn; lia.
Defined.

(** ** The driver from its first packet *)

Lemma dispatch_all_steady {Sound} (pb : Playback) (packets : list (bool * Sound)) :
  started_audio pb = true →
  dispatch_all pb packets
  = (pb, (fun p : bool * Sound => if p.1 then chan_queue p.2 else chan_play p.2)
           <$> packets).
Proof.
  intros Hs. induction packets as [|[busy snd] packets IH]; [done|].
  cbn [dispatch_all]. rewrite dispatch_steady by done. by rewrite IH.
Qed.

(** X1.  The whole life of the driver.  Of the packets sealed since start-up,
    the first is played and the second and third are queued, whatever the
    device answers; every later packet is queued when the device is busy
    and played when it is not; and with three packets or more the driver
    ends steady, having counted three. *)
Theorem driver_from_start {Sound} (p1 p2 p3 : bool * Sound)
    (rest : list (bool * Sound)) :
  dispatch_all initial_playback (p1 :: p2 :: p3 :: rest)
  = ({| started_audio := true; prime_count := 3 |},
     chan_play p1.2 :: chan_queue p2.2 :: chan_queue p3.2
       :: ((fun p : bool * Sound => if p.1 then chan_queue p.2 else chan_play p.2)
             <$> rest)).
Proof.
  destruct p1 as [b1 s1], p2 as [b2 s2], p3 as [b3 s3].
  pose proof (dispatch_all_steady {| started_audio := true; prime_count := 3 |}
                rest eq_refl) as Hrest.
  cbn [dispatch_all].
  change (dispatch initial_playback b1 s1)
    with ({| started_audio := false; prime_count := 1 |}, chan_play s1).
  cbv iota beta.
  change (dispatch {| started_audio := false; prime_count := 1 |} b2 s2)
    with ({| started_audio := false; prime_count := 2 |}, chan_queue s2).
  cbv iota beta.
  change (dispatch {| started_audio := false; prime_count := 2 |} b3 s3)
    with ({| started_audio := true; prime_count := 3 |}, chan_queue s3).
  cbv iota beta.
  by rewrite Hrest.
Qed.
